(** * SMPL forward pass (smpl_torch.py): a shallow embedding

    The tensors of the program are nested lists ([vec], [mat], [ten3]);
    the shape of a tensor is read off its first element, so the embedding
    is faithful for rectangular tensors whose leading axes are non-empty.

    Every tensor operation that can raise in PyTorch returns a [result]:
    the shape checks of [torch.cat], [torch.matmul], [torch.tensordot],
    [torch.reshape] and of broadcasting raise [RuntimeError], indexing
    out of range raises [IndexError], a missing dict key [KeyError].

    Scalars: the development is parametric in an [Arith] (a carrier with
    the operations the program uses).  Structural results (shapes,
    errors, control flow, the formulas of the stages) hold for every
    arithmetic.  The program computes in float32: [F32] instantiates the
    arithmetic with IEEE 754 binary32 (the standard library's [SpecFloat]
    at precision 24: round to nearest even, signed zeros, infinities and
    NaN), and the results about values are stated there.  [torch.cos] and
    [torch.sin] are the platform's: they enter through the interface
    [libm], and [libm_ok] names the two facts about them that are used,
    their values on the window from 0 to [2^-13].  Sums are accumulated
    from zero, from left to right, each product rounded before it is
    added; the order of a reduction and the fusing of product and sum are
    the platform's, and the float32 results below concern sums of zeros,
    sums with one non-zero term and sums that are exact, which depend on
    neither.  [RA] instantiates the arithmetic with the real numbers: it
    serves the exact-arithmetic property of the rotation matrix and the
    instances of the structural theorems.

    The draw [r.clone().normal_(std=1e-8)] of [_rodrigues] is an explicit
    input: a sample [eps i k] for entry [k] of rotation vector [i]. *)

From Stdlib Require Import String.
From Stdlib Require Import List ZArith Lia Bool Reals Lra PeanoNat.
From Stdlib Require Import Floats.SpecFloat.
Open Scope string_scope.
Open Scope list_scope.
Open Scope nat_scope.
Import ListNotations.

Set Implicit Arguments.

(** ** Exceptions and the error monad *)

Inductive exn : Type :=
| KeyError
| IndexError
| RuntimeError (op : string).

Definition exn_name (e : exn) : string :=
  match e with
  | KeyError => "KeyError"
  | IndexError => "IndexError"
  | RuntimeError _ => "RuntimeError"
  end.

Inductive result (X : Type) : Type :=
| Ok (x : X)
| Err (e : exn).

Arguments Ok {X} x.
Arguments Err {X} e.

Definition bind {X Y : Type} (m : result X) (k : X -> result Y) : result Y :=
  match m with
  | Ok x => k x
  | Err e => Err e
  end.

Notation "x <- m ;; k" := (bind m (fun x => k))
  (at level 61, m at next level, right associativity).

Definition is_ok {X : Type} (m : result X) : bool :=
  match m with Ok _ => true | Err _ => false end.

(** [for x in xs: ys.append(f x)], stopping at the first exception. *)
Fixpoint mapM {X Y : Type} (f : X -> result Y) (xs : list X) : result (list Y) :=
  match xs with
  | [] => Ok []
  | x :: xs' => y <- f x ;; ys <- mapM f xs' ;; Ok (y :: ys)
  end.

(** Python indexing [xs[i]] with a non-negative index. *)
Definition index {X : Type} (xs : list X) (i : nat) : result X :=
  match nth_error xs i with
  | Some x => Ok x
  | None => Err IndexError
  end.

(** ** Arithmetic *)

Record Arith : Type := {
  F :> Type;
  fzero : F;
  fone : F;
  fadd : F -> F -> F;
  fsub : F -> F -> F;
  fmul : F -> F -> F;
  fdiv : F -> F -> F;
  fneg : F -> F;
  fsqrt : F -> F;
  fcos : F -> F;
  fsin : F -> F
}.

(** The real numbers: exact arithmetic. *)
Definition RA : Arith := {|
  F := R;
  fzero := 0%R;
  fone := 1%R;
  fadd := Rplus;
  fsub := Rminus;
  fmul := Rmult;
  fdiv := Rdiv;
  fneg := Ropp;
  fsqrt := sqrt;
  fcos := cos;
  fsin := sin
|}.

(** ** float32

    IEEE 754 binary32: 24 bits of precision, exponents below 128. *)

Definition float32 : Type := spec_float.

(** The float32 nearest to [m * 2^e], ties to even. *)
Definition f32 (m e : Z) : float32 := binary_normalize 24 128 m e false.

Definition f32_zero : float32 := S754_zero false.

Definition f32_one : float32 := S754_finite false 8388608 (-23).

(** [torch.cos] and [torch.sin] on float32. *)
Record libm : Type := {
  cosf : float32 -> float32;
  sinf : float32 -> float32
}.

Definition F32 (L : libm) : Arith := {|
  F := float32;
  fzero := f32_zero;
  fone := f32_one;
  fadd := SFadd 24 128;
  fsub := SFsub 24 128;
  fmul := SFmul 24 128;
  fdiv := SFdiv 24 128;
  fneg := SFopp;
  fsqrt := SFsqrt 24 128;
  fcos := cosf L;
  fsin := sinf L
|}.

(** A positive angle of at most [2^-13]. *)
Definition tiny_angle (x : float32) : bool :=
  match x with
  | S754_finite false _ _ => SFleb x (f32 1 (-13))
  | _ => false
  end.

(** [+0.0], or a positive angle of at most [2^-13]. *)
Definition small_angle (x : float32) : bool :=
  match x with
  | S754_zero false => true
  | _ => tiny_angle x
  end.

(** What is assumed of the platform's cosine and sine: for [x] between 0
    and [2^-13] the cosine is 1 and the sine is [x].  These are the values
    of a correctly rounded implementation: [cos x >= 1 - x^2/2] and
    [sin x >= x - x^3/6] lie within half a unit in the last place of [1]
    and of [x]. *)
Record libm_ok (L : libm) : Prop := {
  cos_small : forall x, small_angle x = true -> cosf L x = f32_one;
  sin_small : forall x, small_angle x = true -> sinf L x = x
}.

(** A [libm] that meets [libm_ok]: the values above on the window, the
    polynomials [1 - x^2/2 + x^4/24] and [x - x^3/6] elsewhere. *)
Definition ref_libm : libm := {|
  cosf := fun x =>
    if small_angle x then f32_one
    else let x2 := SFmul 24 128 x x in
         SFsub 24 128 f32_one
           (SFmul 24 128 x2
              (SFsub 24 128 (f32 1 (-1)) (SFdiv 24 128 x2 (f32 24 0))));
  sinf := fun x =>
    if small_angle x then x
    else let x2 := SFmul 24 128 x x in
         SFmul 24 128 x (SFsub 24 128 f32_one (SFdiv 24 128 x2 (f32 6 0)))
|}.

Definition is_zero32 (x : float32) : bool :=
  match x with
  | S754_zero _ => true
  | _ => false
  end.

Definition is_finite32 (x : float32) : bool :=
  match x with
  | S754_zero _ | S754_finite _ _ _ => true
  | _ => false
  end.

(** ** Tensor operations *)

(** Tensors of rank 1, 2 and 3 as nested lists. *)
Notation vec A := (list (F A)) (only parsing).
Notation mat A := (list (list (F A))) (only parsing).
Notation ten3 A := (list (list (list (F A)))) (only parsing).

Section Tensors.

Variable A : Arith.


(** The sum of a 1-d tensor, accumulated from zero as the reductions of
    PyTorch are ([sum], [norm], and the inner sums of [mm] and [bmm]). *)
Definition fsum (l : vec A) : A := fold_left (fadd A) l (fzero A).

Fixpoint zipWith {X Y Z : Type} (f : X -> Y -> Z) (xs : list X) (ys : list Y) : list Z :=
  match xs, ys with
  | x :: xs', y :: ys' => f x y :: zipWith f xs' ys'
  | _, _ => []
  end.

Definition dot (x y : vec A) : A := fsum (zipWith (fmul A) x y).

Definition ncols {X : Type} (m : list (list X)) : nat :=
  match m with
  | [] => 0
  | r :: _ => length r
  end.

Definition col (k : nat) (m : mat A) : vec A := map (fun r => nth k r (fzero A)) m.

(** Broadcasting of one axis: equal sizes are zipped, a size-1 axis is
    repeated, anything else is PyTorch's size-mismatch [RuntimeError]. *)
Definition bzip {X Y Z : Type} (op : string) (f : X -> Y -> result Z)
    (xs : list X) (ys : list Y) : result (list Z) :=
  if length xs =? length ys then mapM (fun p => f (fst p) (snd p)) (combine xs ys)
  else match xs, ys with
       | [x], _ => mapM (f x) ys
       | _, [y] => mapM (fun x => f x y) xs
       | _, _ => Err (RuntimeError op)
       end.

Definition bvec (op : string) (f : A -> A -> A) (x y : vec A) : result (vec A) :=
  bzip op (fun a b => Ok (f a b)) x y.

Definition bmat (op : string) (f : A -> A -> A) (x y : mat A) : result (mat A) :=
  bzip op (bvec op f) x y.

Definition bten3 (op : string) (f : A -> A -> A) (x y : ten3 A) : result (ten3 A) :=
  bzip op (bmat op f) x y.

(** [torch.matmul] of two 2-d tensors: the inner sizes must agree. *)
Definition matmul2 (a b : mat A) : result (mat A) :=
  if forallb (fun r => length r =? length b) a
  then Ok (map (fun r => map (fun k => dot r (col k b)) (seq 0 (ncols b))) a)
  else Err (RuntimeError "matmul").

(** [torch.matmul] of two 3-d tensors: the batch axis broadcasts. *)
Definition matmul3 (a b : ten3 A) : result (ten3 A) := bzip "matmul" matmul2 a b.

(** [torch.cat((a, b), dim=0)] of 2-d tensors.  The width of a matrix is
    that of its first row: a matrix without rows has width 0 here. *)
Definition cat0 (a b : mat A) : result (mat A) :=
  if ncols a =? ncols b then Ok (a ++ b) else Err (RuntimeError "cat").

(** [torch.cat((a, b), dim=1)] of 2-d tensors. *)
Definition cat1 (a b : mat A) : result (mat A) :=
  if length a =? length b then Ok (zipWith (@app A) a b)
  else Err (RuntimeError "cat").

(** [torch.cat((a, b), dim=2)] of 3-d tensors. *)
Definition cat2 (a b : ten3 A) : result (ten3 A) :=
  if (length a =? length b) && forallb (fun p => length (fst p) =? length (snd p)) (combine a b)
  then Ok (zipWith (zipWith (@app A)) a b)
  else Err (RuntimeError "cat").

(** Rows of [n] consecutive elements of a flat buffer. *)
Fixpoint chunks {X : Type} (fuel n : nat) (l : list X) : list (list X) :=
  match fuel with
  | 0 => []
  | S fuel' =>
      match l with
      | [] => []
      | _ => firstn n l :: chunks fuel' n (skipn n l)
      end
  end.

(** [torch.reshape(x, (-1, n))] on the flat buffer of [x]. *)
Definition reshape_rows {X : Type} (n : nat) (l : list X) : result (list (list X)) :=
  if (0 <? n) && (length l mod n =? 0) then Ok (chunks (length l) n l)
  else Err (RuntimeError "reshape").

(** [torch.reshape(x, (k, n))] on the flat buffer of [x]. *)
Definition reshape_to {X : Type} (k n : nat) (l : list X) : result (list (list X)) :=
  if length l =? k * n then Ok (chunks (length l) n l)
  else Err (RuntimeError "reshape").

(** [torch.tensordot(a, b, dims=([last], [0]))] along one innermost row
    [l] of [a], [b] one-dimensional.  A contracted axis of size 1 is
    broadcast: the other operand is summed along the axis first, and the
    product is taken by [mm] with one term.  When the two sizes agree
    (also when both are 1) the result is the sum of the products. *)
Definition contract (l b : vec A) : A :=
  if length l =? length b then dot l b
  else if length b =? 1 then dot [fsum l] b
  else if length l =? 1 then dot l [fsum b]
  else dot l b.

Definition contract_ok (s1 s2 : nat) : bool :=
  (s2 =? 1) || (s1 =? 1) || (s1 =? s2).

Definition dim2 (t : ten3 A) : nat :=
  match t with
  | m :: _ => ncols m
  | [] => 0
  end.

(** [torch.tensordot(a, b, dims=([2], [0]))], [a] 3-d and [b] 1-d. *)
Definition tensordot_31 (a : ten3 A) (b : vec A) : result (mat A) :=
  if contract_ok (dim2 a) (length b)
  then Ok (map (map (fun l => contract l b)) a)
  else Err (RuntimeError "tensordot").

(** The vector over the contracted axis of entry [(a, b)] of a batch. *)
Definition entries (a b : nat) (t : ten3 A) : vec A :=
  map (fun m => nth b (nth a m []) (fzero A)) t.

(** [torch.tensordot(w, t, dims=([1], [0]))], [w] 2-d and [t] 3-d. *)
Definition tensordot_23 (w : mat A) (t : ten3 A) : result (ten3 A) :=
  if contract_ok (ncols w) (length t)
  then Ok (map (fun wr =>
             map (fun a => map (fun b => contract wr (entries a b t))
                               (seq 0 (dim2 t)))
                 (seq 0 (ncols t))) w)
  else Err (RuntimeError "tensordot").

(** [torch.zeros((n, k))] and [torch.ones((n, k))]. *)
Definition zeros (n k : nat) : mat A := repeat (repeat (fzero A) k) n.
Definition ones (n k : nat) : mat A := repeat (repeat (fone A) k) n.

(** [torch.eye(3).unsqueeze(dim=0) + torch.zeros((n, 3, 3))]. *)
Definition eye3_plus_zeros : mat A :=
  map (fun a => map (fun b => fadd A (if a =? b then fone A else fzero A) (fzero A))
                    [0; 1; 2]) [0; 1; 2].

End Tensors.

Arguments fsum {A} l.
Arguments dot {A} x y.
Arguments col {A} k m.
Arguments bvec {A} op f x y.
Arguments bmat {A} op f x y.
Arguments bten3 {A} op f x y.
Arguments matmul2 {A} a b.
Arguments matmul3 {A} a b.
Arguments cat0 {A} a b.
Arguments cat1 {A} a b.
Arguments cat2 {A} a b.
Arguments contract {A} l b.
Arguments dim2 {A} t.
Arguments tensordot_31 {A} a b.
Arguments entries {A} a b t.
Arguments tensordot_23 {A} w t.

(** ** The model *)

Section SMPL.

Variable A : Arith.

Local Notation vec := (vec A) (only parsing).
Local Notation mat := (mat A) (only parsing).
Local Notation ten3 := (ten3 A) (only parsing).

(** The fields [__init__] reads from the pickled parameters. *)
Record SMPL : Type := {
  J_regressor : mat;
  weights : mat;
  posedirs : ten3;
  v_template : mat;
  shapedirs : ten3;
  kintree_table : list (list Z);
  f : list (list Z)
}.

(** The samples of [normal_]: [eps i k] perturbs entry [k] of vector [i]. *)
Definition noise := nat -> nat -> A.

(** Line 45: the angle [theta] that [_rodrigues] computes for the vector
    [r] with the samples [e], the norm of the perturbed vector. *)
Definition perturbed_angle (e : nat -> A) (r : vec) : A :=
  fsqrt A (fsum (map (fun k => fmul A (fadd A (nth k r (fzero A)) (e k))
                                      (fadd A (nth k r (fzero A)) (e k)))
                     (seq 0 (length r)))).

(** [_rodrigues] on one axis-angle vector [r] of the batch, with the
    samples [e] drawn for it.  [r] is a row of [pose.view(-1, 1, 3)]: it
    has three entries.  [rodrigues_row] below runs the operations one by
    one, for a row of any width. *)
Definition rodrigues1 (e : nat -> A) (r : vec) : mat :=
  let x := fun k => nth k r (fzero A) in
  let theta := fsqrt A (fsum (map (fun k => fmul A (fadd A (x k) (e k)) (fadd A (x k) (e k)))
                                 (seq 0 (length r)))) in
  let r_hat := fun k => fdiv A (x k) theta in
  let cos := fcos A theta in
  let z_stick := fzero A in
  let m := [ [ z_stick; fneg A (r_hat 2); r_hat 1 ];
             [ r_hat 2; z_stick; fneg A (r_hat 0) ];
             [ fneg A (r_hat 1); r_hat 0; z_stick ] ] in
  let dot := fun a b => dot [r_hat a] [r_hat b] in
  map (fun a =>
         map (fun b =>
                fadd A (fadd A (fmul A cos (nth b (nth a (eye3_plus_zeros A) []) (fzero A)))
                               (fmul A (fsub A (fone A) cos) (dot a b)))
                       (fmul A (fsin A theta) (nth b (nth a m []) (fzero A))))
             [0; 1; 2]) [0; 1; 2].

Fixpoint rodrigues_from (i : nat) (eps : noise) (r : mat) : ten3 :=
  match r with
  | [] => []
  | ri :: r' => rodrigues1 (eps i) ri :: rodrigues_from (S i) eps r'
  end.

Definition _rodrigues (eps : noise) (r : mat) : ten3 := rodrigues_from 0 eps r.

(** Lines 45-70 operation by operation on one element of the batch, a
    tensor of shape [1, k] given by its row [r], with the checks of each
    operation: the indexing of lines 53-59, [torch.matmul] at line 69,
    and the broadcasting of the products and sums of line 70. *)
Definition rodrigues_row (e : nat -> A) (r : vec) : result mat :=
  let theta := perturbed_angle e r in
  let r_hat := map (fun x => fdiv A x theta) r in
  let cos := fcos A theta in
  let z_stick := fzero A in
  x2 <- index r_hat 2 ;;
  x1 <- index r_hat 1 ;;
  x0 <- index r_hat 0 ;;
  let m := [ [ z_stick; fneg A x2; x1 ];
             [ x2; z_stick; fneg A x0 ];
             [ fneg A x1; x0; z_stick ] ] in
  let i_cube := eye3_plus_zeros A in
  dot <- matmul2 (map (fun x => [x]) r_hat) [r_hat] ;;
  a <- bmat "mul" (fmul A) [ [cos] ] i_cube ;;
  b <- bmat "mul" (fmul A) [ [fsub A (fone A) cos] ] dot ;;
  ab <- bmat "add" (fadd A) a b ;;
  c <- bmat "mul" (fmul A) [ [fsin A theta] ] m ;;
  bmat "add" (fadd A) ab c.

(** [_rodrigues] on a tensor of shape [B, 1, k] given by its [B] rows:
    every operation acts on the elements of the batch one by one.  On
    rows of three entries this is [_rodrigues] above. *)
Definition _rodrigues_ops (eps : noise) (r : mat) : result ten3 :=
  mapM (fun p => rodrigues_row (eps (fst p)) (snd p))
       (combine (seq 0 (length r)) r).

(** [_with_zeros]: append the row [0, 0, 0, 1]. *)
Definition _with_zeros (x : mat) : result mat :=
  cat0 x [ [fzero A; fzero A; fzero A; fone A] ].

(** [_pack]: prepend three zero columns to a batch of columns. *)
Definition _pack (x : ten3) : result ten3 :=
  cat2 (repeat (zeros A 4 3) (length x)) x.

(** A Python dict with integer keys, most recent binding first. *)
Fixpoint dict_get (k : Z) (d : list (Z * nat)) : result nat :=
  match d with
  | [] => Err KeyError
  | (k', v) :: d' => if Z.eqb k k' then Ok v else dict_get k d'
  end.

(** [kintree_table[r, i]]. *)
Definition kt_at (kt : list (list Z)) (r i : nat) : result Z :=
  row <- index kt r ;; index row i.

(** Lines 130-131: [id_to_col], then [parent] as the list of the pairs
    [(i, parent[i])] for [i] in [range(1, shape[1])]. *)
Definition id_to_col (kt : list (list Z)) : result (list (Z * nat)) :=
  ps <- mapM (fun i => k <- kt_at kt 1 i ;; Ok (k, i)) (seq 0 (ncols kt)) ;;
  Ok (rev ps).

Definition parent (kt : list (list Z)) : result (list (nat * nat)) :=
  d <- id_to_col kt ;;
  mapM (fun i => k <- kt_at kt 0 i ;; c <- dict_get k d ;; Ok (i, c))
       (seq 1 (ncols kt - 1)).

(** Lines 132-133: [v_shaped] and [J]. *)
Definition v_shaped_of (b : SMPL) (beta : vec) : result mat :=
  sd <- tensordot_31 (shapedirs b) beta ;;
  bmat "add" (fadd A) sd (v_template b).

(** Lines 136-145: [v_posed]. *)
Definition v_posed_of (b : SMPL) (R_cube_big : ten3) (v_shaped : mat)
    (simplify : bool) : result mat :=
  if simplify then Ok v_shaped
  else
    let R_cube := tl R_cube_big in
    let I_cube := repeat (eye3_plus_zeros A) (length R_cube) in
    d <- bten3 "sub" (fsub A) R_cube I_cube ;;
    let lrotmin := concat (concat d) in
    pd <- tensordot_31 (posedirs b) lrotmin ;;
    bmat "add" (fadd A) v_shaped pd.

(** [_with_zeros(torch.cat((R, torch.reshape(t, (3, 1))), dim=1))]. *)
Definition local_transform (R : mat) (t : vec) : result mat :=
  c <- reshape_to 3 1 t ;;
  x <- cat1 R c ;;
  _with_zeros x.

(** Line 148: the root entry of [results]. *)
Definition fk_root (R_cube_big : ten3) (J : mat) : result mat :=
  R0 <- index R_cube_big 0 ;;
  J0 <- index J 0 ;;
  local_transform R0 J0.

(** Lines 150-163: one iteration of the loop, appending to [results]. *)
Definition fk_step (R_cube_big : ten3) (J : mat) (results : list mat)
    (ip : nat * nat) : result (list mat) :=
  let (i, p) := ip in
  Gp <- index results p ;;
  Ri <- index R_cube_big i ;;
  Ji <- index J i ;;
  Jp <- index J p ;;
  d <- bvec "sub" (fsub A) Ji Jp ;;
  L <- local_transform Ri d ;;
  G <- matmul2 Gp L ;;
  Ok (results ++ [G]).

Fixpoint fk_loop (R_cube_big : ten3) (J : mat) (results : list mat)
    (ps : list (nat * nat)) : result (list mat) :=
  match ps with
  | [] => Ok results
  | ip :: ps' =>
      results' <- fk_step R_cube_big J results ip ;;
      fk_loop R_cube_big J results' ps'
  end.

(** Lines 165-177: subtracting the rest-pose offset. *)
Definition rest_correct (J : mat) (stacked : ten3) : result ten3 :=
  Jz <- cat1 J (zeros A 24 1) ;;
  Jh <- reshape_to 24 4 (concat Jz) ;;
  let Jcol := map (map (fun x => [x])) Jh in
  prod <- matmul3 stacked Jcol ;;
  pk <- _pack prod ;;
  bten3 "sub" (fsub A) stacked pk.

(** Lines 178-188: linear blend skinning and the global translation. *)
Definition skin (b : SMPL) (results : ten3) (v_posed : mat) (trans : vec)
    : result mat :=
  T <- tensordot_23 (weights b) results ;;
  rest_shape_h <- cat1 v_posed (ones A (length v_posed) 1) ;;
  h <- reshape_rows 4 (concat rest_shape_h) ;;
  let hcol := map (map (fun x => [x])) h in
  v <- matmul3 T hcol ;;
  v4 <- reshape_rows 4 (concat (concat v)) ;;
  let v3 := map (firstn 3) v4 in
  t <- reshape_to 1 3 trans ;;
  bmat "add" (fadd A) v3 t.

(** [forward(beta, pose, trans, simplify)]. *)
Definition forward (b : SMPL) (eps : noise) (beta : vec) (pose : mat)
    (trans : vec) (simplify : bool) : result (mat * list (list Z)) :=
  parent <- parent (kintree_table b) ;;
  v_shaped <- v_shaped_of b beta ;;
  J <- matmul2 (J_regressor b) v_shaped ;;
  r <- reshape_rows 3 (concat pose) ;;
  let R_cube_big := _rodrigues eps r in
  v_posed <- v_posed_of b R_cube_big v_shaped simplify ;;
  G0 <- fk_root R_cube_big J ;;
  stacked <- fk_loop R_cube_big J [G0] parent ;;
  results <- rest_correct J stacked ;;
  vertices <- skin b results v_posed trans ;;
  Ok (vertices, f b).

End SMPL.

Arguments rodrigues1 {A} e r.
Arguments rodrigues_from {A} i eps r.
Arguments _rodrigues {A} eps r.
Arguments perturbed_angle {A} e r.
Arguments rodrigues_row {A} e r.
Arguments _rodrigues_ops {A} eps r.
Arguments _with_zeros {A} x.
Arguments _pack {A} x.
Arguments v_shaped_of {A} b beta.
Arguments v_posed_of {A} b R_cube_big v_shaped simplify.
Arguments local_transform {A} R t.
Arguments fk_root {A} R_cube_big J.
Arguments fk_step {A} R_cube_big J results ip.
Arguments fk_loop {A} R_cube_big J results ps.
Arguments rest_correct {A} J stacked.
Arguments skin {A} b results v_posed trans.
Arguments forward {A} b eps beta pose trans simplify.

(** The 3 by 3 identity matrix. *)
Definition identity3 {A : Arith} : mat A :=
  [ [fone A; fzero A; fzero A];
    [fzero A; fone A; fzero A];
    [fzero A; fzero A; fone A] ].

(** ** Shapes *)

Section Shapes.

Variable X : Type.

(** An [n] by [k] matrix. *)
Definition shape2 (n k : nat) (m : list (list X)) : Prop :=
  length m = n /\ Forall (fun r => length r = k) m.

(** An [n] by [k] by [s] tensor. *)
Definition shape3 (n k s : nat) (t : list (list (list X))) : Prop :=
  length t = n /\ Forall (shape2 k s) t.

End Shapes.

(** ** The stages in closed form

    What the spec's formulas say each stage computes, written without
    the error monad; the theorems below relate them to the program. *)

Section ClosedForms.

Variable A : Arith.

(** The homogeneous matrix [[R | t]] with bottom row [(0, 0, 0, 1)]. *)
Definition homog (R : mat A) (t : vec A) : mat A :=
  zipWith (fun r x => r ++ [x]) R t ++ [ [fzero A; fzero A; fzero A; fone A] ].

(** The matrix product. *)
Definition mm (a b : mat A) : mat A :=
  map (fun r => map (fun k => dot r (col k b)) (seq 0 (ncols b))) a.

(** [G_i = G_{parent(i)} . [R_i | J_i - J_{parent(i)}]], appended. *)
Definition G_step (R : ten3 A) (J : mat A) (Gs : list (mat A)) (ip : nat * nat)
    : list (mat A) :=
  Gs ++ [ mm (nth (snd ip) Gs [])
             (homog (nth (fst ip) R [])
                    (zipWith (fsub A) (nth (fst ip) J []) (nth (snd ip) J []))) ].

Definition G_all (R : ten3 A) (J : mat A) (ps : list (nat * nat)) : list (mat A) :=
  fold_left (G_step R J) ps [ homog (nth 0 R []) (nth 0 J []) ].

(** [T = G - pack(G . [j; 0])]. *)
Definition relative (G : mat A) (j : vec A) : mat A :=
  zipWith (zipWith (fsub A)) G
          (map (fun r => [fzero A; fzero A; fzero A; dot r (j ++ [fzero A])]) G).

(** [T_v = sum_j w[j] . T_j], entry by entry. *)
Definition blend (w : vec A) (Ts : ten3 A) : mat A :=
  map (fun a => map (fun b => dot w (entries a b Ts)) (seq 0 4)) (seq 0 4).

(** [(T_v . homogeneous(p))[0:3] + trans]. *)
Definition skinned (w : vec A) (Ts : ten3 A) (p trans : vec A) : vec A :=
  zipWith (fadd A)
          (firstn 3 (map (fun r => dot r (p ++ [fone A])) (blend w Ts)))
          trans.

(** The pose-corrected vertices of lines 139-145. *)
Definition pose_corrected (pd : ten3 A) (R : ten3 A) (v_shaped : mat A) : mat A :=
  let d := zipWith (zipWith (zipWith (fsub A))) (tl R)
                   (repeat (eye3_plus_zeros A) (length (tl R))) in
  zipWith (zipWith (fadd A)) v_shaped
          (map (map (fun l => dot l (concat (concat d)))) pd).

(** The shaped vertices of line 132. *)
Definition shaped (b : SMPL A) (beta : vec A) : mat A :=
  zipWith (zipWith (fadd A)) (map (map (fun l => dot l beta)) (shapedirs b))
          (v_template b).

(** The joint rest positions of line 133. *)
Definition joints (b : SMPL A) (beta : vec A) : mat A :=
  mm (J_regressor b) (shaped b beta).

(** The posed vertices of lines 136-145. *)
Definition posed (b : SMPL A) (R : ten3 A) (beta : vec A) (simplify : bool)
    : mat A :=
  if simplify then shaped b beta
  else pose_corrected (posedirs b) R (shaped b beta).

(** The relative transforms of lines 147-177, for the parents [ps]. *)
Definition transforms (b : SMPL A) (R : ten3 A) (beta : vec A)
    (ps : list (nat * nat)) : ten3 A :=
  zipWith relative (G_all R (joints b beta) ps) (joints b beta).

(** The vertices [forward] returns, for the parents [ps]. *)
Definition mesh (b : SMPL A) (eps : noise A) (beta : vec A) (pose : mat A)
    (trans : vec A) (simplify : bool) (ps : list (nat * nat)) : mat A :=
  let R := _rodrigues eps pose in
  zipWith (fun w p => skinned w (transforms b R beta ps) p trans)
          (weights b) (posed b R beta simplify).

End ClosedForms.

Arguments homog {A} R t.
Arguments mm {A} a b.
Arguments G_step {A} R J Gs ip.
Arguments G_all {A} R J ps.
Arguments relative {A} G j.
Arguments blend {A} w Ts.
Arguments skinned {A} w Ts p trans.
Arguments pose_corrected {A} pd R v_shaped.
Arguments shaped {A} b beta.
Arguments joints {A} b beta.
Arguments posed {A} b R beta simplify.
Arguments transforms {A} b R beta ps.
Arguments mesh {A} b eps beta pose trans simplify ps.

(** ** Well-formed inputs *)

(** The kinematic tree is in topological order: every parent column is
    defined and strictly smaller than the column of its child. *)
Definition topological (kt : list (list Z)) : bool :=
  match parent kt with
  | Ok ps => forallb (fun ip => snd ip <? fst ip) ps
  | Err _ => false
  end.

(** The arrays of a bundle with [V] vertices, [Jn] joints and [S] shape
    components agree on their sizes (section 3 of the spec). *)
Record consistent {A : Arith} (b : SMPL A) (V Jn S : nat) : Prop := {
  c_V : 1 <= V;
  c_Jn : 1 <= Jn;
  c_v_template : shape2 V 3 (v_template b);
  c_shapedirs : shape3 V 3 S (shapedirs b);
  c_posedirs : shape3 V 3 (9 * (Jn - 1)) (posedirs b);
  c_J_regressor : shape2 Jn V (J_regressor b);
  c_weights : shape2 V Jn (weights b);
  c_kintree_shape : shape2 2 Jn (kintree_table b);
  c_kintree_order : topological (kintree_table b) = true
}.

(** [b] with another pose-corrective basis. *)
Definition with_posedirs {A : Arith} (b : SMPL A) (pd : ten3 A) : SMPL A :=
  {| J_regressor := J_regressor b;
     weights := weights b;
     posedirs := pd;
     v_template := v_template b;
     shapedirs := shapedirs b;
     kintree_table := kintree_table b;
     f := f b |}.

(** [b] with another kinematic tree. *)
Definition with_kintree {A : Arith} (b : SMPL A) (kt : list (list Z)) : SMPL A :=
  {| J_regressor := J_regressor b;
     weights := weights b;
     posedirs := posedirs b;
     v_template := v_template b;
     shapedirs := shapedirs b;
     kintree_table := kt;
     f := f b |}.

(** [b] with other template vertices. *)
Definition with_v_template {A : Arith} (b : SMPL A) (t : mat A) : SMPL A :=
  {| J_regressor := J_regressor b;
     weights := weights b;
     posedirs := posedirs b;
     v_template := t;
     shapedirs := shapedirs b;
     kintree_table := kintree_table b;
     f := f b |}.

(** [b] with another shape basis. *)
Definition with_shapedirs {A : Arith} (b : SMPL A) (sd : ten3 A) : SMPL A :=
  {| J_regressor := J_regressor b;
     weights := weights b;
     posedirs := posedirs b;
     v_template := v_template b;
     shapedirs := sd;
     kintree_table := kintree_table b;
     f := f b |}.

(** The same float32 bundle, for another cosine and sine. *)
Definition rebase (L L' : libm) (b : SMPL (F32 L)) : SMPL (F32 L') :=
  @Build_SMPL (F32 L') (J_regressor b) (weights b) (posedirs b) (v_template b)
    (shapedirs b) (kintree_table b) (f b).

(** ** A small bundle over the reals

    One vertex, one shape component and 24 joints that all hang off the
    root; the vertex follows the root joint only, and every joint rests
    at the origin. *)

Definition ex_kintree : list (list Z) :=
  [ 4294967295%Z :: repeat 0%Z 23; map Z.of_nat (seq 0 24) ].

Definition ex_bundle : SMPL RA :=
  @Build_SMPL RA
    (* J_regressor *) (repeat [0%R] 24)
    (* weights *) [ 1%R :: repeat 0%R 23 ]
    (* posedirs *) [ repeat (repeat 0%R 207) 3 ]
    (* v_template *) [ [0%R; 1%R; 0%R] ]
    (* shapedirs *) [ [ [1%R]; [2%R]; [3%R] ] ]
    (* kintree_table *) ex_kintree
    (* f *) [ [0%Z; 0%Z; 0%Z] ].

(** Joint 1 names joint 5 as its parent: the columns are out of order. *)
Definition ex_kintree_shuffled : list (list Z) :=
  [ 4294967295%Z :: 5%Z :: repeat 0%Z 22; map Z.of_nat (seq 0 24) ].

(** The root turned by one radian about the x axis, the rest at rest. *)
Definition ex_pose : mat RA := [1%R; 0%R; 0%R] :: repeat [0%R; 0%R; 0%R] 23.

(** A perturbation that moves only the first entry of the root vector. *)
Definition ex_noise (e : R) : noise RA :=
  fun i k => match i, k with 0, 0 => e | _, _ => 0%R end.

(** The same bundle with two shape components. *)
Definition ex_bundle2 : SMPL RA :=
  @Build_SMPL RA
    (J_regressor ex_bundle) (weights ex_bundle) (posedirs ex_bundle)
    (v_template ex_bundle)
    (* shapedirs *) [ [ [1%R; 2%R]; [3%R; 4%R]; [5%R; 6%R] ] ]
    (kintree_table ex_bundle) (f ex_bundle).

(** The bottom row of a homogeneous transform is [(0, 0, 0, 1)]. *)
Definition bottom_row {A : Arith} (G : mat A) : Prop :=
  nth 3 G [] = [fzero A; fzero A; fzero A; fone A].

(** The angle [_rodrigues] computes for the vector [(x, y, z)] with the
    samples [e]: the norm of the perturbed vector. *)
Definition perturbed_norm (e : nat -> R) (x y z : R) : R :=
  sqrt ((x + e 0%nat) * (x + e 0%nat) + (y + e 1%nat) * (y + e 1%nat)
        + (z + e 2%nat) * (z + e 2%nat))%R.

(** ** The same bundle in float32, and draws of the perturbation *)

(** A vector of three zeros, of either sign. *)
Definition zero_vector (r : list float32) : Prop :=
  exists s0 s1 s2, r = [S754_zero s0; S754_zero s1; S754_zero s2].

(** The draw [eps] gives every vector of [r] a perturbed angle that is
    positive and at most [2^-13].  The samples have standard deviation
    [1e-8], about [2^-27]. *)
Definition regular_draw (L : libm) (eps : noise (F32 L)) (r : mat (F32 L)) : Prop :=
  forall i, i < length r ->
    tiny_angle (perturbed_angle (A := F32 L) (eps i) (nth i r [])) = true.

(** The 3 by 3 matrix of NaN. *)
Definition nan3 : list (list float32) := repeat (repeat S754_nan 3) 3.

Definition ex_bundle32 (L : libm) : SMPL (F32 L) :=
  @Build_SMPL (F32 L)
    (* J_regressor *) (repeat [f32_zero] 24)
    (* weights *) [ f32_one :: repeat f32_zero 23 ]
    (* posedirs *) [ repeat (repeat f32_zero 207) 3 ]
    (* v_template *) [ [f32_zero; f32_one; f32_zero] ]
    (* shapedirs *) [ [ [f32 1 0]; [f32 2 0]; [f32 3 0] ] ]
    (* kintree_table *) ex_kintree
    (* f *) [ [0%Z; 0%Z; 0%Z] ].

(** [torch.zeros((n, 3))]. *)
Definition zero_pose32 (n : nat) : list (list float32) :=
  repeat [f32_zero; f32_zero; f32_zero] n.

(** The draw with the samples [root] for the root vector and [rest] for
    every other vector. *)
Definition draw32 (root rest : list float32) : nat -> nat -> float32 :=
  fun i k => nth k (match i with 0 => root | _ => rest end) f32_zero.

(** Two draws, samples between [2^-29] and [2^-26] in size. *)
Definition ex_draw_a : nat -> nat -> float32 :=
  draw32 [f32 1 (-27); f32 (-1) (-26); f32 3 (-28)]
         [f32 (-3) (-29); f32 1 (-26); f32 1 (-28)].

Definition ex_draw_b : nat -> nat -> float32 :=
  draw32 [f32 (-1) (-28); f32 5 (-29); f32 (-1) (-26)]
         [f32 1 (-27); f32 1 (-27); f32 (-1) (-27)].

(** A pose whose root vector is [(2^-27, 2^-27, 2^-27)], about [7.45e-9]
    in each entry; the other joints are at rest. *)
Definition tiny_pose32 : list (list float32) :=
  [f32 1 (-27); f32 1 (-27); f32 1 (-27)] :: zero_pose32 23.

Definition ex_rest_samples : list float32 :=
  [f32 1 (-27); f32 1 (-27); f32 (-1) (-27)].

(** Three draws for [tiny_pose32].  With the first the perturbed root
    vector is [(2, 4, 4) * 2^-27], of norm [3 * 2^-26]; with the second
    it is [(9, 24, 32) * 2^-30], of norm [41 * 2^-30]; the third is the
    opposite of the root vector. *)
Definition ex_draw_1 : nat -> nat -> float32 :=
  draw32 [f32 1 (-27); f32 3 (-27); f32 3 (-27)] ex_rest_samples.

Definition ex_draw_2 : nat -> nat -> float32 :=
  draw32 [f32 1 (-30); f32 1 (-26); f32 3 (-27)] ex_rest_samples.

Definition ex_draw_cancel : nat -> nat -> float32 :=
  draw32 [f32 (-1) (-27); f32 (-1) (-27); f32 (-1) (-27)] ex_rest_samples.

(** * Properties *)

(** ** The error monad and broadcasting *)

Section MonadFacts.

Context {X Y Z : Type}.

Lemma bind_ok (m : result X) (k : X -> result Y) (y : Y) :
  bind m k = Ok y -> exists x, m = Ok x /\ k x = Ok y.
Proof.
  destruct m as [x|e]; simpl; intros H; [exists x; auto | discriminate].
Qed.

Lemma mapM_pure (g : X -> Y) (f : X -> result Y) (xs : list X) :
  (forall x, In x xs -> f x = Ok (g x)) -> mapM f xs = Ok (map g xs).
Proof.
  induction xs as [|x xs IH]; simpl; intros H; [reflexivity|].
  rewrite (H x (or_introl eq_refl)); simpl.
  rewrite IH by (intros; apply H; auto). reflexivity.
Qed.

Lemma mapM_length (f : X -> result Y) (xs : list X) (ys : list Y) :
  mapM f xs = Ok ys -> length ys = length xs.
Proof.
  revert ys; induction xs as [|x xs IH]; simpl; intros ys H.
  - inversion H; reflexivity.
  - destruct (f x); simpl in H; [|discriminate].
    destruct (mapM f xs); simpl in H; [|discriminate].
    inversion H; simpl; f_equal; auto.
Qed.

Lemma zipWith_map_combine (g : X -> Y -> Z) (xs : list X) (ys : list Y) :
  map (fun p => g (fst p) (snd p)) (combine xs ys) = zipWith g xs ys.
Proof.
  revert ys; induction xs as [|x xs IH]; intros [|y ys]; simpl; auto.
  f_equal; apply IH.
Qed.

Lemma zipWith_length (g : X -> Y -> Z) (xs : list X) (ys : list Y) :
  length xs = length ys -> length (zipWith g xs ys) = length xs.
Proof.
  revert ys; induction xs as [|x xs IH]; intros [|y ys]; simpl; auto; try discriminate.
Qed.

End MonadFacts.

Lemma bzip_same {X Y Z : Type} (op : string) (f : X -> Y -> result Z) (g : X -> Y -> Z)
    (xs : list X) (ys : list Y) :
  length xs = length ys ->
  (forall x y, In (x, y) (combine xs ys) -> f x y = Ok (g x y)) ->
  bzip op f xs ys = Ok (zipWith g xs ys).
Proof.
  intros Hl Hf. unfold bzip. rewrite Hl, Nat.eqb_refl.
  rewrite <- zipWith_map_combine. apply mapM_pure.
  intros [x y] Hin; simpl; auto.
Qed.

Lemma nth_zipWith {X Y Z : Type} (g : X -> Y -> Z) (xs : list X) (ys : list Y)
    (i : nat) (dx : X) (dy : Y) (dz : Z) :
  i < length xs -> length xs = length ys ->
  nth i (zipWith g xs ys) dz = g (nth i xs dx) (nth i ys dy).
Proof.
  revert ys i; induction xs as [|x xs IH]; intros [|y ys] [|i]; simpl;
    intros Hi Hl; try lia; auto.
  apply IH; lia.
Qed.

Lemma nth_map_map {X Y : Type} (g : X -> Y) (t : list (list X)) (v : nat) :
  nth v (map (map g) t) [] = map g (nth v t []).
Proof.
  exact (map_nth (map g) t [] v).
Qed.

Section TensorFacts.

Variable A : Arith.

Lemma bvec_same (op : string) (g : A -> A -> A) (x y : vec A) :
  length x = length y -> bvec op g x y = Ok (zipWith g x y).
Proof.
  intros H. unfold bvec. apply bzip_same; auto.
Qed.

Lemma bmat_same (op : string) (g : A -> A -> A) (k : nat) (x y : mat A) :
  length x = length y ->
  Forall (fun r => length r = k) x -> Forall (fun r => length r = k) y ->
  bmat op g x y = Ok (zipWith (zipWith g) x y).
Proof.
  intros Hl Hx Hy. unfold bmat. apply bzip_same; auto.
  intros r s Hin. apply bvec_same.
  rewrite Forall_forall in Hx, Hy.
  rewrite (Hx r), (Hy s); eauto using in_combine_l, in_combine_r.
Qed.

Lemma contract_same_length (l b : vec A) :
  length l = length b -> contract l b = dot l b.
Proof.
  unfold contract. intros H. rewrite H, Nat.eqb_refl. reflexivity.
Qed.

End TensorFacts.

(** Length goals, up to the tensor type abbreviations. *)
Ltac len := rewrite ?length_map; simpl in *; lia.

(** ** Shape blending (lines 132-133) *)

Section ShapeBlend.

Variable A : Arith.

Lemma dim2_shape3 (n k s : nat) (t : ten3 A) :
  1 <= n -> 1 <= k -> shape3 n k s t -> dim2 t = s.
Proof.
  intros Hn Hk [Hl Hf]. destruct t as [|m t]; simpl in *; [lia|].
  inversion Hf as [|? ? [Hm Hr] _]; subst.
  destruct m as [|r m]; simpl in *; [lia|].
  inversion Hr; auto.
Qed.

Lemma contract_ok_same (s : nat) : contract_ok s s = true.
Proof.
  unfold contract_ok. rewrite Nat.eqb_refl. apply orb_true_r.
Qed.

Lemma map_ext_Forall {X Y : Type} (g h : X -> Y) (P : X -> Prop) (l : list X) :
  Forall P l -> (forall x, P x -> g x = h x) -> map g l = map h l.
Proof.
  induction 1; simpl; intros E; f_equal; auto.
Qed.

Lemma tensordot_31_same (n k : nat) (t : ten3 A) (b : vec A) :
  1 <= n -> 1 <= k -> shape3 n k (length b) t ->
  tensordot_31 t b = Ok (map (map (fun l => dot l b)) t).
Proof.
  intros Hn Hk Ht. unfold tensordot_31.
  rewrite (dim2_shape3 Hn Hk Ht), contract_ok_same. f_equal.
  destruct Ht as [_ Hf].
  apply map_ext_Forall with (P := shape2 k (length b)); auto.
  intros m [_ Hm].
  apply map_ext_Forall with (P := fun r => length r = length b); auto.
  intros; apply contract_same_length; auto.
Qed.


End ShapeBlend.

(** ** Reshaping *)

Section Reshape.

Variable X : Type.

Lemma length_concat_rows (n : nat) (rows : list (list X)) :
  Forall (fun r => length r = n) rows -> length (concat rows) = length rows * n.
Proof.
  induction 1 as [|r rows Hr _ IH]; simpl; auto.
  rewrite length_app, IH, Hr. reflexivity.
Qed.

Lemma chunks_concat (n : nat) (rows : list (list X)) (fuel : nat) :
  0 < n -> Forall (fun r => length r = n) rows -> length rows <= fuel ->
  chunks fuel n (concat rows) = rows.
Proof.
  intros Hn Hrows. revert fuel.
  induction Hrows as [|r rows Hr _ IH]; intros fuel Hf.
  - destruct fuel; reflexivity.
  - destruct fuel as [|fuel]; simpl in Hf; [lia|]. simpl.
    destruct (r ++ concat rows) eqn:E.
    + destruct r; simpl in *; [lia | discriminate].
    + rewrite <- E. rewrite <- Hr at 1 3.
      rewrite firstn_app, Nat.sub_diag, firstn_all, skipn_app, Nat.sub_diag,
        skipn_all. simpl. rewrite app_nil_r. f_equal. apply IH. lia.
Qed.

Lemma reshape_rows_concat (n : nat) (rows : list (list X)) :
  0 < n -> Forall (fun r => length r = n) rows ->
  reshape_rows n (concat rows) = Ok rows.
Proof.
  intros Hn Hrows. unfold reshape_rows.
  rewrite (length_concat_rows Hrows), Nat.Div0.mod_mul.
  destruct (Nat.ltb_spec 0 n) as [_|]; [simpl | lia]. f_equal.
  apply chunks_concat; auto; nia.
Qed.

Lemma reshape_to_concat (k n : nat) (rows : list (list X)) :
  0 < n -> shape2 k n rows -> reshape_to k n (concat rows) = Ok rows.
Proof.
  intros Hn [Hl Hrows]. unfold reshape_to.
  rewrite (length_concat_rows Hrows), Hl, Nat.eqb_refl. f_equal.
  apply chunks_concat; auto. nia.
Qed.

Lemma reshape_to_bad (k n : nat) (l : list X) :
  length l <> k * n -> reshape_to k n l = Err (RuntimeError "reshape").
Proof.
  intros H. unfold reshape_to. apply Nat.eqb_neq in H. rewrite H. reflexivity.
Qed.

Lemma concat_singletons (l : list X) : concat (map (fun x => [x]) l) = l.
Proof.
  induction l; simpl; f_equal; auto.
Qed.

End Reshape.

Lemma reshape_column {X : Type} (t : list X) :
  reshape_to (length t) 1 t = Ok (map (fun x => [x]) t).
Proof.
  rewrite <- (concat_singletons t) at 2.
  apply reshape_to_concat; [lia|]. split; [apply length_map|].
  apply Forall_forall. intros r Hr. apply in_map_iff in Hr.
  destruct Hr as [x [<- _]]. reflexivity.
Qed.

Lemma reshape_row {X : Type} (n : nat) (t : list X) :
  0 < n -> length t = n -> reshape_to 1 n t = Ok [t].
Proof.
  intros Hn Hl. rewrite <- (app_nil_r t) at 1.
  change (t ++ []) with (concat [t]).
  apply reshape_to_concat; auto. split; auto.
Qed.

(** ** The stages succeed on well-shaped data *)

Lemma index_ok {X : Type} (xs : list X) (i : nat) (d : X) :
  i < length xs -> index xs i = Ok (nth i xs d).
Proof.
  intros H. unfold index.
  rewrite (nth_error_nth' xs d H). reflexivity.
Qed.

Lemma index_bad {X : Type} (xs : list X) (i : nat) :
  length xs <= i -> index xs i = Err IndexError.
Proof.
  intros H. unfold index.
  apply nth_error_None in H. rewrite H. reflexivity.
Qed.

Lemma mapM_inv {X Y : Type} (f : X -> result Y) (g : Y -> X) (xs : list X)
    (ys : list Y) :
  (forall x y, f x = Ok y -> g y = x) -> mapM f xs = Ok ys -> map g ys = xs.
Proof.
  intros Hg. revert ys; induction xs as [|x xs IH]; simpl; intros ys H.
  - inversion H; reflexivity.
  - destruct (f x) as [y|] eqn:E; simpl in H; [|discriminate].
    destruct (mapM f xs) as [ys'|]; simpl in H; [|discriminate].
    inversion H; subst; simpl. f_equal; eauto.
Qed.

Lemma parent_fst (kt : list (list Z)) (ps : list (nat * nat)) :
  parent kt = Ok ps -> map fst ps = seq 1 (ncols kt - 1).
Proof.
  unfold parent. intros H.
  destruct (id_to_col kt) as [d|]; simpl in H; [|discriminate].
  apply mapM_inv with (g := fst) in H; auto.
  intros i [i' c] Hi.
  destruct (kt_at kt 0 i); simpl in Hi; [|discriminate].
  destruct (dict_get x d); simpl in Hi; [|discriminate].
  inversion Hi; reflexivity.
Qed.

Section Stages.

Variable A : Arith.

Lemma matmul2_ok (a b : mat A) :
  Forall (fun r => length r = length b) a -> matmul2 a b = Ok (mm a b).
Proof.
  intros H. unfold matmul2.
  match goal with
  | |- context [forallb ?g a] => destruct (forallb g a) eqn:E
  end; [reflexivity|].
  exfalso. apply Bool.not_true_iff_false in E. apply E.
  apply forallb_forall. rewrite Forall_forall in H.
  intros r Hr. apply Nat.eqb_eq; auto.
Qed.

Lemma mm_shape (a b : mat A) : shape2 (length a) (ncols b) (mm a b).
Proof.
  split; unfold mm; [apply length_map|].
  apply Forall_forall. intros r Hr. apply in_map_iff in Hr.
  destruct Hr as [x [<- _]]. rewrite length_map, length_seq. reflexivity.
Qed.

Lemma shape2_cols {X : Type} (n k : nat) (m : list (list X)) :
  1 <= n -> shape2 n k m -> ncols m = k.
Proof.
  intros Hn [Hl Hf]. destruct m; simpl in *; [lia|]. inversion Hf; auto.
Qed.

Lemma shape2_nth {X : Type} (n k : nat) (m : list (list X)) (i : nat) :
  shape2 n k m -> i < n -> length (nth i m []) = k.
Proof.
  intros [Hl Hf] Hi. rewrite Forall_forall in Hf. apply Hf, nth_In. len.
Qed.

Lemma local_transform_ok (R : mat A) (t : vec A) :
  shape2 3 3 R -> length t = 3 ->
  local_transform R t = Ok (homog R t) /\ shape2 4 4 (homog R t).
Proof.
  intros [Hl Hf] Ht.
  destruct R as [|r0 [|r1 [|r2 [|]]]]; try discriminate.
  destruct t as [|t0 [|t1 [|t2 [|]]]]; try discriminate.
  inversion Hf as [|? ? H0 Hf1]; subst. inversion Hf1 as [|? ? H1 Hf2]; subst.
  inversion Hf2 as [|? ? H2 _]; subst.
  split.
  - unfold local_transform, homog, _with_zeros, cat0. simpl.
    rewrite length_app, H0. reflexivity.
  - split; [reflexivity|]. unfold homog. simpl.
    repeat constructor; rewrite ?length_app; simpl; lia.
Qed.

Lemma rodrigues1_shape (e : nat -> A) (r : vec A) : shape2 3 3 (rodrigues1 e r).
Proof.
  split; [reflexivity|]. unfold rodrigues1. repeat constructor.
Qed.

Lemma rodrigues_from_shape (i : nat) (eps : noise A) (r : mat A) :
  shape3 (length r) 3 3 (rodrigues_from i eps r).
Proof.
  revert i; induction r as [|ri r IH]; intros i; simpl.
  - split; [reflexivity | constructor].
  - destruct (IH (S i)) as [Hl Hf]. split; simpl; [f_equal; auto|].
    constructor; auto. apply rodrigues1_shape.
Qed.

Lemma rodrigues_shape (eps : noise A) (r : mat A) :
  shape3 (length r) 3 3 (_rodrigues eps r).
Proof.
  apply rodrigues_from_shape.
Qed.

Lemma shape3_nth (n k s : nat) (t : ten3 A) (i : nat) :
  shape3 n k s t -> i < n -> shape2 k s (nth i t []).
Proof.
  intros [Hl Hf] Hi. rewrite Forall_forall in Hf. apply Hf, nth_In. len.
Qed.

Lemma fk_step_ok (R : ten3 A) (J : mat A) (Gs : list (mat A)) (n i p : nat) :
  shape3 n 3 3 R -> shape2 n 3 J -> Forall (shape2 4 4) Gs ->
  p < length Gs -> i < n -> p < n ->
  fk_step R J Gs (i, p) = Ok (G_step R J Gs (i, p)) /\
  Forall (shape2 4 4) (G_step R J Gs (i, p)).
Proof.
  intros HR HJ HG Hp Hi Hpn.
  pose proof (@shape3_nth _ _ _ _ _ HR Hi) as HRi.
  pose proof (@shape2_nth _ _ _ _ _ HJ Hi) as HJi.
  pose proof (@shape2_nth _ _ _ _ _ HJ Hpn) as HJp.
  assert (Hd : length (zipWith (fsub A) (nth i J []) (nth p J [])) = 3)
    by (rewrite zipWith_length; len).
  destruct (@local_transform_ok _ _ HRi Hd) as [HL HLs].
  assert (HGp : shape2 4 4 (nth p Gs [])).
  { rewrite Forall_forall in HG. apply HG, nth_In; auto. }
  assert (Hmm : matmul2 (nth p Gs []) (homog (nth i R []) (zipWith (fsub A) (nth i J []) (nth p J [])))
                = Ok (mm (nth p Gs []) (homog (nth i R []) (zipWith (fsub A) (nth i J []) (nth p J []))))).
  { apply matmul2_ok. destruct HGp as [_ HGf], HLs as [HLl _].
    rewrite Forall_forall in *. intros r Hr.
    transitivity 4; [auto | symmetry; exact HLl]. }
  split.
  - unfold fk_step.
    rewrite (index_ok Gs [] Hp). simpl.
    destruct HR as [HRl _], HJ as [HJl _].
    rewrite (index_ok R []) by len. simpl.
    rewrite (index_ok J []) by len. simpl.
    rewrite (index_ok J []) by len. simpl.
    rewrite bvec_same by len. simpl.
    rewrite HL. simpl. rewrite Hmm. reflexivity.
  - unfold G_step. simpl. apply Forall_app. split; auto.
    constructor; auto.
    pose proof (mm_shape (nth p Gs []) (homog (nth i R []) (zipWith (fsub A) (nth i J []) (nth p J [])))) as [Hs1 Hs2].
    destruct HGp as [HGl _].
    split; [transitivity (length (nth p Gs [])); auto|].
    rewrite (@shape2_cols _ 4 4) in Hs2; auto.
Qed.

Lemma fk_loop_ok (R : ten3 A) (J : mat A) (n : nat) (ps : list (nat * nat)) :
  shape3 n 3 3 R -> shape2 n 3 J ->
  forall (Gs : list (mat A)),
  Forall (shape2 4 4) Gs ->
  map fst ps = seq (length Gs) (length ps) ->
  Forall (fun ip => snd ip < fst ip) ps ->
  length Gs + length ps <= n ->
  fk_loop R J Gs ps = Ok (fold_left (G_step R J) ps Gs) /\
  Forall (shape2 4 4) (fold_left (G_step R J) ps Gs) /\
  length (fold_left (G_step R J) ps Gs) = length Gs + length ps.
Proof.
  intros HR HJ. induction ps as [|[i p] ps IH]; intros Gs HG Hfst Hord Hn.
  - simpl. repeat split; auto.
  - cbn [length map fst seq] in Hfst, Hn. inversion Hfst as [[Hi Hrest]].
    inversion Hord as [|? ? Hp Hord']; subst. cbn [fst snd] in Hp.
    cbn [fk_loop fold_left].
    destruct (@fk_step_ok R J Gs n (length Gs) p) as [Hs Hsh]; auto; try lia.
    rewrite Hs. cbn [bind].
    assert (Hlen : length (G_step R J Gs (length Gs, p)) = S (length Gs)).
    { unfold G_step. rewrite length_app. simpl. lia. }
    destruct (IH (G_step R J Gs (length Gs, p))) as [H1 [H2 H3]]; auto.
    + rewrite Hlen. exact Hrest.
    + rewrite Hlen. lia.
    + repeat split; auto. rewrite H3, Hlen. cbn [length]. lia.
Qed.

End Stages.

(** ** Zipping *)

Section ZipFacts.

Context {X Y Z W : Type}.

Lemma zipWith_map_l (g : Y -> Z -> W) (h : X -> Y) (xs : list X) (zs : list Z) :
  zipWith g (map h xs) zs = zipWith (fun x z => g (h x) z) xs zs.
Proof.
  revert zs; induction xs as [|x xs IH]; intros [|z zs]; simpl; auto.
  f_equal; apply IH.
Qed.

Lemma zipWith_map_r (g : X -> Z -> W) (h : Y -> Z) (xs : list X) (ys : list Y) :
  zipWith g xs (map h ys) = zipWith (fun x y => g x (h y)) xs ys.
Proof.
  revert ys; induction xs as [|x xs IH]; intros [|y ys]; simpl; auto.
  f_equal; apply IH.
Qed.

Lemma map_zipWith (h : Z -> W) (g : X -> Y -> Z) (xs : list X) (ys : list Y) :
  map h (zipWith g xs ys) = zipWith (fun x y => h (g x y)) xs ys.
Proof.
  revert ys; induction xs as [|x xs IH]; intros [|y ys]; simpl; auto.
  f_equal; apply IH.
Qed.

Lemma zipWith_repeat_r (g : X -> Y -> Z) (xs : list X) (y : Y) (n : nat) :
  length xs = n -> zipWith g xs (repeat y n) = map (fun x => g x y) xs.
Proof.
  intros <-. induction xs; simpl; f_equal; auto.
Qed.

Lemma zipWith_repeat_l (g : X -> Y -> Z) (x : X) (ys : list Y) (n : nat) :
  length ys = n -> zipWith g (repeat x n) ys = map (g x) ys.
Proof.
  intros <-. induction ys; simpl; f_equal; auto.
Qed.

Lemma zipWith_ext_in (g h : X -> Y -> Z) (xs : list X) (ys : list Y) :
  (forall x y, In (x, y) (combine xs ys) -> g x y = h x y) ->
  zipWith g xs ys = zipWith h xs ys.
Proof.
  revert ys; induction xs as [|x xs IH]; intros [|y ys]; simpl; auto.
  intros E. f_equal; [apply E; auto | apply IH; intros; apply E; auto].
Qed.

Lemma zipWith_self (g : X -> X -> Z) (xs : list X) :
  zipWith g xs xs = map (fun x => g x x) xs.
Proof.
  induction xs; simpl; f_equal; auto.
Qed.

End ZipFacts.

Lemma zipWith_zip_l {X Y Z W : Type} (g : Z -> Y -> W) (h : X -> Y -> Z)
    (xs : list X) (ys : list Y) :
  zipWith g (zipWith h xs ys) ys = zipWith (fun x y => g (h x y) y) xs ys.
Proof.
  revert ys; induction xs as [|x xs IH]; intros [|y ys]; simpl; auto.
  f_equal; apply IH.
Qed.

Lemma zipWith_zip_r {X Y Z W : Type} (g : X -> Z -> W) (h : X -> Y -> Z)
    (xs : list X) (ys : list Y) :
  zipWith g xs (zipWith h xs ys) = zipWith (fun x y => g x (h x y)) xs ys.
Proof.
  revert ys; induction xs as [|x xs IH]; intros [|y ys]; simpl; auto.
  f_equal; apply IH.
Qed.

Lemma Forall_zipWith {X Y Z : Type} (P : Z -> Prop) (g : X -> Y -> Z)
    (xs : list X) (ys : list Y) :
  (forall x y, In (x, y) (combine xs ys) -> P (g x y)) ->
  Forall P (zipWith g xs ys).
Proof.
  revert ys; induction xs as [|x xs IH]; intros [|y ys]; simpl; intros H;
    constructor; auto.
Qed.

Lemma concat_concat_map {X : Type} (t : list (list (list X))) :
  concat (concat t) = concat (map (@concat X) t).
Proof.
  induction t as [|m t IH]; simpl; auto.
  rewrite concat_app, IH. reflexivity.
Qed.

(** ** The loop of the kinematic chain on a tree out of order *)

Section Loop.

Variable A : Arith.

Lemma fk_step_length (R : ten3 A) (J : mat A) (Gs Gs' : list (mat A))
    (ip : nat * nat) :
  fk_step R J Gs ip = Ok Gs' -> length Gs' = S (length Gs).
Proof.
  destruct ip as [i p]. unfold fk_step. intros H.
  repeat (apply bind_ok in H; destruct H as [? [_ H]]).
  inversion H. rewrite length_app. simpl. lia.
Qed.

Lemma fk_step_out_of_order (R : ten3 A) (J : mat A) (Gs : list (mat A))
    (i p : nat) :
  length Gs <= p -> fk_step R J Gs (i, p) = Err IndexError.
Proof.
  intros H. unfold fk_step. rewrite index_bad; auto.
Qed.

Lemma fk_loop_out_of_order (R : ten3 A) (J : mat A) (ps : list (nat * nat)) :
  forall Gs : list (mat A),
  map fst ps = seq (length Gs) (length ps) ->
  Exists (fun ip => fst ip <= snd ip) ps ->
  exists e, fk_loop R J Gs ps = Err e.
Proof.
  induction ps as [|[i p] ps IH]; intros Gs Hfst Hex.
  - inversion Hex.
  - cbn [length map fst seq] in Hfst. inversion Hfst as [[Hi Hrest]].
    clear Hfst. subst i. cbn [fk_loop].
    destruct (fk_step R J Gs (length Gs, p)) as [Gs'|e] eqn:E;
      [|exists e; reflexivity].
    cbn [bind]. pose proof (fk_step_length _ _ _ _ E) as Hlen.
    inversion Hex as [? ? Hhd|? ? Htl]; subst.
    + cbn [fst snd] in Hhd. rewrite fk_step_out_of_order in E by lia.
      discriminate.
    + apply IH; auto. rewrite Hlen. exact Hrest.
Qed.

End Loop.

(** ** Removing the rest-pose offset (lines 165-177) *)

Section RestPose.

Variable A : Arith.

Lemma shape2_zipWith (g : A -> A -> A) (k s : nat) (x y : mat A) :
  shape2 k s x -> shape2 k s y -> shape2 k s (zipWith (zipWith g) x y).
Proof.
  intros [Hx1 Hx2] [Hy1 Hy2]. split; [rewrite zipWith_length; congruence|].
  apply Forall_zipWith. intros r r' Hin. rewrite Forall_forall in Hx2, Hy2.
  rewrite zipWith_length; [eauto using in_combine_l|].
  rewrite (Hx2 r), (Hy2 r'); eauto using in_combine_l, in_combine_r.
Qed.


Lemma col_singletons (l : vec A) : col 0 (map (fun x => [x]) l) = l.
Proof.
  unfold col. rewrite map_map. simpl. apply map_id.
Qed.

Lemma mm_column (G : mat A) (l : vec A) :
  l <> [] -> mm G (map (fun x => [x]) l) = map (fun r => [dot r l]) G.
Proof.
  intros Hl. unfold mm. destruct l as [|x l]; [congruence|].
  change (ncols (map (fun x0 : A => [x0]) (x :: l))) with 1.
  set (M := map (fun x0 : A => [x0]) (x :: l)).
  apply map_ext. intros r. cbn [seq map].
  subst M. rewrite col_singletons. reflexivity.
Qed.

Lemma matmul2_column (G : mat A) (l : vec A) (n : nat) :
  Forall (fun r => length r = n) G -> length l = n ->
  matmul2 G (map (fun x => [x]) l) = Ok (mm G (map (fun x => [x]) l)).
Proof.
  intros HG Hl. apply matmul2_ok. rewrite length_map.
  rewrite Forall_forall in *. intros r Hr. rewrite Hl. auto.
Qed.

Lemma cat2_ok (k : nat) (a b : ten3 A) :
  length a = length b ->
  Forall (fun m => length m = k) a -> Forall (fun m => length m = k) b ->
  cat2 a b = Ok (zipWith (zipWith (@app A)) a b).
Proof.
  intros Hl Ha Hb. unfold cat2. rewrite Hl, Nat.eqb_refl. cbn [andb].
  match goal with
  | |- context [forallb ?g ?l] => destruct (forallb g l) eqn:E
  end; [reflexivity|].
  exfalso. apply Bool.not_true_iff_false in E. apply E.
  apply forallb_forall. intros [x y] Hin. cbn [fst snd].
  rewrite Forall_forall in Ha, Hb. apply Nat.eqb_eq.
  rewrite (Ha x), (Hb y); eauto using in_combine_l, in_combine_r.
Qed.

Lemma bten3_same (op : string) (g : A -> A -> A) (k s : nat) (x y : ten3 A) :
  length x = length y ->
  Forall (shape2 k s) x -> Forall (shape2 k s) y ->
  bten3 op g x y = Ok (zipWith (zipWith (zipWith g)) x y).
Proof.
  intros Hl Hx Hy. unfold bten3. apply bzip_same; auto.
  intros m m' Hin. rewrite Forall_forall in Hx, Hy.
  destruct (Hx m (in_combine_l _ _ _ _ Hin)) as [Hm1 Hm2].
  destruct (Hy m' (in_combine_r _ _ _ _ Hin)) as [Hm1' Hm2'].
  apply bmat_same with (k := s); auto.
  transitivity k; [exact Hm1 | symmetry; exact Hm1'].
Qed.

Lemma pack_relative (G : mat A) (j : vec A) :
  length G = 4 ->
  zipWith (zipWith (fsub A)) G
          (zipWith (@app A) (zeros A 4 3)
                   (mm G (map (fun x => [x]) (j ++ [fzero A]))))
  = relative G j.
Proof.
  intros HG. unfold relative. f_equal.
  rewrite mm_column by (destruct j; discriminate).
  unfold zeros. rewrite zipWith_repeat_l by (rewrite length_map; auto).
  rewrite map_map. reflexivity.
Qed.

Lemma relative_shape (G : mat A) (j : vec A) :
  shape2 4 4 G -> shape2 4 4 (relative G j).
Proof.
  intros HG. unfold relative. apply shape2_zipWith; auto.
  destruct HG as [HG1 _]. split; [rewrite length_map; auto|].
  apply Forall_forall. intros r Hr. apply in_map_iff in Hr.
  destruct Hr as [r' [<- _]]. reflexivity.
Qed.

Lemma rest_correct_bad (J : mat A) (stacked : ten3 A) :
  length J <> 24 -> rest_correct J stacked = Err (RuntimeError "cat").
Proof.
  intros H. unfold rest_correct, cat1, zeros. rewrite repeat_length.
  apply Nat.eqb_neq in H. rewrite H. reflexivity.
Qed.

Lemma rest_correct_ok (J : mat A) (stacked : ten3 A) :
  shape2 24 3 J -> shape3 24 4 4 stacked ->
  rest_correct J stacked = Ok (zipWith relative stacked J).
Proof.
  intros [HJl HJf] [HSl HSf]. unfold rest_correct.
  assert (Hcat : cat1 J (zeros A 24 1) = Ok (map (fun j => j ++ [fzero A]) J)).
  { unfold cat1, zeros. rewrite repeat_length, HJl. cbn [Nat.eqb].
    rewrite zipWith_repeat_r by auto. reflexivity. }
  rewrite Hcat. cbn [bind].
  assert (HJz : shape2 24 4 (map (fun j : vec A => j ++ [fzero A]) J)).
  { split; [rewrite length_map; auto|]. rewrite Forall_forall in *.
    intros r Hr. apply in_map_iff in Hr. destruct Hr as [j [<- Hj]].
    rewrite length_app, (HJf j Hj). reflexivity. }
  rewrite reshape_to_concat by (auto; lia). cbn [bind].
  rewrite map_map.
  assert (Hmm : matmul3 stacked (map (fun j : vec A => map (fun x => [x]) (j ++ [fzero A])) J)
                = Ok (zipWith (fun G j => mm G (map (fun x => [x]) (j ++ [fzero A]))) stacked J)).
  { unfold matmul3. rewrite <- zipWith_map_r. apply bzip_same.
    - rewrite length_map. congruence.
    - intros G Jc HIn.
      pose proof (in_combine_l _ _ _ _ HIn) as HG.
      pose proof (in_combine_r _ _ _ _ HIn) as HJc.
      apply in_map_iff in HJc. destruct HJc as [j [<- Hj]].
      rewrite Forall_forall in HSf, HJf. destruct (HSf G HG) as [_ HGr].
      apply matmul2_column with (n := 4); auto.
      rewrite length_app, (HJf j Hj). reflexivity. }
  rewrite Hmm. cbn [bind].
  assert (Hprod : Forall (fun m : mat A => length m = 4)
            (zipWith (fun G j => mm G (map (fun x => [x]) (j ++ [fzero A]))) stacked J)).
  { apply Forall_zipWith. intros G j HIn. unfold mm. rewrite length_map.
    rewrite Forall_forall in HSf.
    destruct (HSf G (in_combine_l _ _ _ _ HIn)); auto. }
  unfold _pack. rewrite zipWith_length by congruence.
  rewrite cat2_ok with (k := 4); auto.
  2: { rewrite repeat_length, zipWith_length by congruence. reflexivity. }
  2: { apply Forall_forall. intros m Hm. apply repeat_spec in Hm. subst m.
       unfold zeros. apply repeat_length. }
  cbn [bind]. rewrite zipWith_repeat_l by (rewrite zipWith_length; congruence).
  rewrite map_zipWith.
  rewrite bten3_same with (k := 4) (s := 4).
  - f_equal. rewrite zipWith_zip_r. apply zipWith_ext_in.
    intros G j HIn. apply pack_relative.
    rewrite Forall_forall in HSf.
    destruct (HSf G (in_combine_l _ _ _ _ HIn)); auto.
  - rewrite zipWith_length; congruence.
  - exact HSf.
  - apply Forall_zipWith. intros G j HIn.
    rewrite Forall_forall in HSf.
    destruct (HSf G (in_combine_l _ _ _ _ HIn)) as [HG1 HG2].
    rewrite mm_column by (destruct j; discriminate).
    unfold zeros. rewrite zipWith_repeat_l by (rewrite length_map; auto).
    rewrite map_map. split; [rewrite length_map; auto|].
    apply Forall_forall. intros r Hr. apply in_map_iff in Hr.
    destruct Hr as [r' [<- _]]. reflexivity.
Qed.

End RestPose.

(** ** Pose correctives (lines 139-145) and skinning (lines 178-188) *)

Section Skinning.

Variable A : Arith.

Lemma eye3_shape : shape2 3 3 (eye3_plus_zeros A).
Proof.
  split; [reflexivity | repeat constructor].
Qed.

Lemma shape3_tl (n k s : nat) (t : ten3 A) :
  shape3 n k s t -> shape3 (n - 1) k s (tl t).
Proof.
  intros [Hl Hf]. destruct t as [|m t]; simpl in *.
  - split; simpl; [lia | constructor].
  - inversion Hf; subst. split; simpl; [lia | auto].
Qed.

Lemma v_posed_of_ok (b : SMPL A) (R : ten3 A) (v_shaped : mat A) (V n : nat) :
  1 <= V -> shape3 n 3 3 R -> shape3 V 3 (9 * (n - 1)) (posedirs b) ->
  shape2 V 3 v_shaped ->
  v_posed_of b R v_shaped false = Ok (pose_corrected (posedirs b) R v_shaped).
Proof.
  intros HV HR Hpd [Hvl Hvf]. unfold v_posed_of, pose_corrected.
  destruct (shape3_tl HR) as [Htl Htf].
  set (I_cube := repeat (eye3_plus_zeros A) (length (tl R))).
  assert (HI : Forall (shape2 3 3) I_cube).
  { apply Forall_forall. intros m Hm. apply repeat_spec in Hm. subst m.
    apply eye3_shape. }
  assert (HIl : length (tl R) = length I_cube)
    by (unfold I_cube; rewrite repeat_length; reflexivity).
  rewrite bten3_same with (k := 3) (s := 3); auto. cbn [bind].
  set (d := zipWith (zipWith (zipWith (fsub A))) (tl R) I_cube).
  assert (Hd : shape3 (n - 1) 3 3 d).
  { split; [unfold d; rewrite zipWith_length; auto|].
    apply Forall_zipWith. intros m m' Hin. rewrite Forall_forall in Htf, HI.
    apply shape2_zipWith; eauto using in_combine_l, in_combine_r. }
  assert (Hlen : length (concat (concat d)) = 9 * (n - 1)).
  { destruct Hd as [Hd1 Hd2].
    rewrite (@length_concat_rows _ 3).
    - rewrite (@length_concat_rows _ 3 d); [lia|].
      apply Forall_impl with (P := shape2 3 3); auto. intros m [Hm _]; auto.
    - apply Forall_concat.
      apply Forall_impl with (P := shape2 3 3); auto. intros m [_ Hm]; auto. }
  rewrite <- Hlen in Hpd.
  rewrite (@tensordot_31_same A V 3) by (auto; lia). cbn [bind].
  apply bmat_same with (k := 3); auto.
  - destruct Hpd as [Hp1 _]. rewrite length_map. congruence.
  - destruct Hpd as [_ Hp2]. rewrite Forall_forall in *. intros r Hr.
    apply in_map_iff in Hr. destruct Hr as [m [<- Hm]]. rewrite length_map.
    destruct (Hp2 m Hm); auto.
Qed.

Lemma bmat_row (op : string) (g : A -> A -> A) (x : mat A) (t : vec A) :
  Forall (fun r => length r = length t) x ->
  bmat op g x [t] = Ok (map (fun r => zipWith g r t) x).
Proof.
  intros Hx. unfold bmat, bzip.
  assert (Hm : forall l : mat A, Forall (fun r => length r = length t) l ->
            mapM (fun r => bvec op g r t) l = Ok (map (fun r => zipWith g r t) l)).
  { intros l Hl. apply mapM_pure. rewrite Forall_forall in Hl.
    intros r Hr. apply bvec_same; auto. }
  destruct x as [|r [|r' x]].
  - reflexivity.
  - cbn. inversion Hx; subst. rewrite bvec_same by auto. reflexivity.
  - cbn [length Nat.eqb]. apply Hm; auto.
Qed.

Lemma tensordot_23_ok (w : mat A) (Ts : ten3 A) (V n : nat) :
  1 <= V -> 1 <= n -> shape2 V n w -> shape3 n 4 4 Ts ->
  tensordot_23 w Ts = Ok (map (fun wr => blend wr Ts) w).
Proof.
  intros HV Hn Hw HT. unfold tensordot_23.
  rewrite (shape2_cols HV Hw).
  destruct HT as [HTl HTf]. rewrite HTl, contract_ok_same. f_equal.
  assert (Hc : ncols Ts = 4 /\ dim2 Ts = 4).
  { destruct Ts as [|m Ts]; simpl in *; [lia|].
    inversion HTf as [|? ? [Hm1 Hm2] _]; subst. split; auto.
    destruct m; simpl in *; [lia|]. inversion Hm2; auto. }
  destruct Hc as [-> ->]. destruct Hw as [_ Hwf].
  apply map_ext_Forall with (P := fun r : vec A => length r = n); auto.
  intros wr Hwr. unfold blend.
  apply map_ext. intros a. apply map_ext. intros c.
  apply contract_same_length. unfold entries. rewrite length_map. congruence.
Qed.

Lemma blend_shape (w : vec A) (Ts : ten3 A) : shape2 4 4 (blend w Ts).
Proof.
  split; [reflexivity | repeat constructor].
Qed.

Lemma skin_ok (b : SMPL A) (Ts : ten3 A) (v_posed : mat A) (trans : vec A)
    (V n : nat) :
  1 <= V -> 1 <= n -> shape2 V n (weights b) -> shape3 n 4 4 Ts ->
  shape2 V 3 v_posed -> length trans = 3 ->
  skin b Ts v_posed trans
  = Ok (zipWith (fun w p => skinned w Ts p trans) (weights b) v_posed).
Proof.
  intros HV Hn Hw HT [Hpl Hpf] Htr. unfold skin.
  rewrite (tensordot_23_ok HV Hn Hw HT). cbn [bind].
  assert (Hcat : cat1 v_posed (ones A (length v_posed) 1)
                 = Ok (map (fun p => p ++ [fone A]) v_posed)).
  { unfold cat1, ones. rewrite repeat_length, Nat.eqb_refl.
    rewrite zipWith_repeat_r by auto. reflexivity. }
  rewrite Hcat. cbn [bind].
  assert (Hh : Forall (fun r : vec A => length r = 4)
                 (map (fun p => p ++ [fone A]) v_posed)).
  { rewrite Forall_forall in *. intros r Hr. apply in_map_iff in Hr.
    destruct Hr as [p [<- Hp]]. rewrite length_app, (Hpf p Hp). reflexivity. }
  rewrite reshape_rows_concat by (auto; lia). cbn [bind].
  rewrite map_map.
  destruct Hw as [Hwl Hwf].
  assert (Hmm : matmul3 (map (fun wr => blend wr Ts) (weights b))
                        (map (fun p : vec A => map (fun x => [x]) (p ++ [fone A])) v_posed)
                = Ok (zipWith (fun w p => map (fun r => [dot r (p ++ [fone A])]) (blend w Ts))
                              (weights b) v_posed)).
  { unfold matmul3. rewrite bzip_same with (g := @mm A).
    - rewrite zipWith_map_l, zipWith_map_r. f_equal.
      apply zipWith_ext_in. intros w p _.
      apply mm_column. destruct p; discriminate.
    - rewrite !length_map. congruence.
    - intros T h HIn.
      pose proof (in_combine_l _ _ _ _ HIn) as HT'.
      pose proof (in_combine_r _ _ _ _ HIn) as Hh'.
      apply in_map_iff in HT'. destruct HT' as [wr [<- _]].
      apply in_map_iff in Hh'. destruct Hh' as [p [<- Hp]].
      rewrite Forall_forall in Hpf.
      apply matmul2_column with (n := 4).
      + apply blend_shape.
      + rewrite length_app, (Hpf p Hp). reflexivity. }
  rewrite Hmm. cbn [bind].
  rewrite concat_concat_map, map_zipWith.
  assert (Hrows : zipWith (fun (w p : vec A) =>
                     concat (map (fun r => [dot r (p ++ [fone A])]) (blend w Ts)))
                     (weights b) v_posed
                  = zipWith (fun (w p : vec A) =>
                     map (fun r => dot r (p ++ [fone A])) (blend w Ts))
                     (weights b) v_posed).
  { apply zipWith_ext_in. intros w p _.
    rewrite <- (concat_singletons (map (fun r => dot r (p ++ [fone A])) (blend w Ts))).
    rewrite map_map. reflexivity. }
  rewrite Hrows.
  rewrite reshape_rows_concat; [|lia|].
  2: { apply Forall_zipWith. intros w p _. reflexivity. }
  cbn [bind]. rewrite map_zipWith.
  rewrite (@reshape_row _ 3) by (auto; lia). cbn [bind].
  rewrite bmat_row.
  - rewrite map_zipWith. reflexivity.
  - apply Forall_zipWith. intros w p _. rewrite Htr. reflexivity.
Qed.

End Skinning.

(** ** The whole pass on a consistent bundle *)

Section Forward.

Variable A : Arith.

Lemma topological_parent (kt : list (list Z)) (Jn : nat) :
  shape2 2 Jn kt -> topological kt = true ->
  exists ps, parent kt = Ok ps /\
             map fst ps = seq 1 (Jn - 1) /\
             length ps = Jn - 1 /\
             Forall (fun ip => snd ip < fst ip) ps.
Proof.
  intros Hs Ht. unfold topological in Ht.
  destruct (parent kt) as [ps|] eqn:E; [|discriminate].
  exists ps. pose proof (parent_fst _ E) as Hf.
  rewrite (@shape2_cols _ 2 Jn) in Hf by (auto; lia).
  repeat split; auto.
  - rewrite <- (length_map fst), Hf, length_seq. reflexivity.
  - apply Forall_forall. intros ip Hip.
    rewrite forallb_forall in Ht. apply Nat.ltb_lt. auto.
Qed.

Lemma v_shaped_of_ok (b : SMPL A) (beta : vec A) (V : nat) :
  1 <= V -> shape3 V 3 (length beta) (shapedirs b) -> shape2 V 3 (v_template b) ->
  v_shaped_of b beta = Ok (shaped b beta) /\ shape2 V 3 (shaped b beta).
Proof.
  intros HV Hsd Htp. pose proof Hsd as [Hsl Hsf]. pose proof Htp as [Htl Htf].
  assert (Hrows : shape2 V 3 (map (map (fun l : vec A => dot l beta)) (shapedirs b))).
  { split; [rewrite length_map; auto|]. rewrite Forall_forall in *.
    intros r Hr. apply in_map_iff in Hr.
    destruct Hr as [m [<- Hm]]. rewrite length_map. destruct (Hsf m Hm); auto. }
  split.
  - unfold v_shaped_of, shaped.
    rewrite (@tensordot_31_same A V 3) by (auto; lia). cbn [bind].
    destruct Hrows as [Hr1 Hr2]. apply bmat_same with (k := 3); auto. congruence.
  - apply shape2_zipWith; auto.
Qed.

(** One coordinate of [shaped], in the order the program adds. *)
Lemma shaped_entry (b : SMPL A) (beta : vec A) (V v c : nat) :
  shape3 V 3 (length beta) (shapedirs b) -> shape2 V 3 (v_template b) ->
  v < V -> c < 3 ->
  nth c (nth v (shaped b beta) []) (fzero A)
  = fadd A (dot (nth c (nth v (shapedirs b) []) []) beta)
           (nth c (nth v (v_template b) []) (fzero A)) /\
  length (nth c (nth v (shapedirs b) []) []) = length beta.
Proof.
  intros [Hsl Hsf] [Htl Htf] Hv Hc.
  assert (Hmv : shape2 3 (length beta) (nth v (shapedirs b) [])).
  { rewrite Forall_forall in Hsf. apply Hsf, nth_In. rewrite Hsl. exact Hv. }
  assert (Htv : length (nth v (v_template b) []) = 3).
  { rewrite Forall_forall in Htf. apply Htf, nth_In. rewrite Htl. exact Hv. }
  destruct Hmv as [Hm1 Hm2]. split.
  - unfold shaped.
    rewrite nth_zipWith with (dx := []) (dy := []) by len.
    rewrite nth_map_map.
    rewrite nth_zipWith with (dx := fzero A) (dy := fzero A) by len.
    f_equal.
    rewrite nth_indep with (d' := dot [] beta) by len.
    apply (map_nth (fun l => dot l beta)).
  - rewrite Forall_forall in Hm2. apply Hm2, nth_In. rewrite Hm1. exact Hc.
Qed.

Lemma joints_ok (b : SMPL A) (beta : vec A) (V Jn : nat) :
  1 <= V -> shape2 Jn V (J_regressor b) -> shape2 V 3 (shaped b beta) ->
  matmul2 (J_regressor b) (shaped b beta) = Ok (joints b beta) /\
  shape2 Jn 3 (joints b beta).
Proof.
  intros HV [Hl Hf] Hs. split.
  - apply matmul2_ok. destruct Hs as [Hsl _].
    rewrite Forall_forall in *. intros r Hr. rewrite (Hf r Hr). auto.
  - unfold joints. pose proof (@mm_shape A (J_regressor b) (shaped b beta)) as Hm.
    rewrite Hl, (shape2_cols HV Hs) in Hm. exact Hm.
Qed.

(** The stages before the rest-pose correction, on consistent data. *)
Lemma forward_prefix (b : SMPL A) (eps : noise A) (beta : vec A) (pose : mat A)
    (simplify : bool) (V Jn : nat) :
  consistent b V Jn (length beta) -> shape2 Jn 3 pose ->
  exists ps,
    parent (kintree_table b) = Ok ps /\
    v_shaped_of b beta = Ok (shaped b beta) /\
    matmul2 (J_regressor b) (shaped b beta) = Ok (joints b beta) /\
    reshape_rows 3 (concat pose) = Ok pose /\
    v_posed_of b (_rodrigues eps pose) (shaped b beta) simplify
      = Ok (posed b (_rodrigues eps pose) beta simplify) /\
    fk_root (_rodrigues eps pose) (joints b beta)
      = Ok (homog (nth 0 (_rodrigues eps pose) []) (nth 0 (joints b beta) [])) /\
    fk_loop (_rodrigues eps pose) (joints b beta)
            [homog (nth 0 (_rodrigues eps pose) []) (nth 0 (joints b beta) [])] ps
      = Ok (G_all (_rodrigues eps pose) (joints b beta) ps) /\
    shape3 Jn 4 4 (G_all (_rodrigues eps pose) (joints b beta) ps) /\
    shape2 Jn 3 (joints b beta) /\
    shape2 V 3 (posed b (_rodrigues eps pose) beta simplify) /\
    map fst ps = seq 1 (Jn - 1) /\
    Forall (fun ip => snd ip < fst ip) ps.
Proof.
  intros [HV HJn Htp Hsd Hpd HJr Hw Hks Hko] Hpose.
  destruct (@topological_parent _ _ Hks Hko) as [ps [Hps [Hfst [Hlen Hord]]]].
  exists ps.
  destruct (@v_shaped_of_ok b beta V HV Hsd Htp) as [Hvs Hvss].
  destruct (@joints_ok b beta V Jn HV HJr Hvss) as [Hj Hjs].
  pose proof (@rodrigues_shape A eps pose) as HR.
  destruct Hpose as [Hpl Hpf]. rewrite Hpl in HR.
  assert (HR0 : shape2 3 3 (nth 0 (_rodrigues eps pose) [])).
  { apply (@shape3_nth A Jn 3 3); auto. }
  assert (HJ0 : length (nth 0 (joints b beta) []) = 3).
  { apply (@shape2_nth _ Jn 3); auto. }
  destruct (@local_transform_ok A _ _ HR0 HJ0) as [HL HLs].
  destruct (@fk_loop_ok A (_rodrigues eps pose) (joints b beta) Jn ps HR Hjs
              [homog (nth 0 (_rodrigues eps pose) []) (nth 0 (joints b beta) [])])
    as [Hloop [Hsh Hll]]; auto.
  { rewrite Hlen. exact Hfst. }
  { rewrite Hlen. simpl. lia. }
  assert (Hposed : v_posed_of b (_rodrigues eps pose) (shaped b beta) simplify
                   = Ok (posed b (_rodrigues eps pose) beta simplify) /\
                   shape2 V 3 (posed b (_rodrigues eps pose) beta simplify)).
  { destruct simplify; [split; auto|]. unfold posed.
    rewrite (@v_posed_of_ok A b _ _ V Jn); auto. split; auto.
    unfold pose_corrected. apply shape2_zipWith; auto.
    destruct Hpd as [Hp1 Hp2]. split; [rewrite length_map; auto|].
    rewrite Forall_forall in *. intros r Hr.
    apply in_map_iff in Hr. destruct Hr as [m [<- Hm]]. rewrite length_map.
    destruct (Hp2 m Hm); auto. }
  destruct Hposed as [Hpo Hpos].
  pose proof Hjs as [Hjs1 Hjs2]. pose proof Hpos as [Hpos1 Hpos2].
  repeat split; auto.
  - apply reshape_rows_concat; auto; lia.
  - unfold fk_root. destruct HR as [HRl _], Hjs as [Hjl _].
    rewrite (index_ok _ []) by lia. cbn [bind].
    rewrite (index_ok _ []) by lia. cbn [bind]. exact HL.
  - unfold G_all. rewrite Hll, Hlen. simpl. lia.
Qed.

(** On a consistent bundle with 24 joints the pass returns [mesh]. *)
Lemma forward_ok (b : SMPL A) (eps : noise A) (beta : vec A) (pose : mat A)
    (trans : vec A) (simplify : bool) (V : nat) :
  consistent b V 24 (length beta) -> shape2 24 3 pose -> length trans = 3 ->
  exists ps,
    parent (kintree_table b) = Ok ps /\
    forward b eps beta pose trans simplify
    = Ok (mesh b eps beta pose trans simplify ps, f b).
Proof.
  intros Hc Hpose Htr.
  destruct (@forward_prefix b eps beta pose simplify V 24 Hc Hpose)
    as [ps [Hps [Hvs [Hj [Hr [Hpo [Hroot [Hloop [HG [HJ [HP _]]]]]]]]]]].
  exists ps. split; auto. unfold forward.
  rewrite Hps. cbn [bind]. rewrite Hvs. cbn [bind]. rewrite Hj. cbn [bind].
  rewrite Hr. cbn [bind]. rewrite Hpo. cbn [bind]. rewrite Hroot. cbn [bind].
  rewrite Hloop. cbn [bind].
  rewrite (@rest_correct_ok A _ _ HJ HG). cbn [bind].
  destruct Hc as [HV _ _ _ _ _ Hw _ _].
  rewrite (@skin_ok A b _ _ _ V 24); auto; try lia.
  unfold transforms. split; [rewrite zipWith_length; destruct HG, HJ; congruence|].
  destruct HG as [_ HGf]. rewrite Forall_forall in HGf.
  apply Forall_zipWith. intros G j HIn.
  apply relative_shape. apply HGf. eauto using in_combine_l.
Qed.

End Forward.

(** ** The example bundle *)

Lemma ex_bundle_consistent : consistent ex_bundle 1 24 1.
Proof.
  constructor; repeat first [reflexivity | lia | split | constructor].
Qed.

Lemma ex_pose_shape : shape2 24 3 ex_pose.
Proof.
  split; [reflexivity | repeat constructor].
Qed.

Example ex_shuffled_raises :
  forward (with_kintree ex_bundle ex_kintree_shuffled) (ex_noise 0) [0%R] ex_pose
          [0%R; 0%R; 0%R] true = Err IndexError.
Proof.
  reflexivity.
Qed.

(** ** float32 *)

Lemma ref_libm_ok : libm_ok ref_libm.
Proof.
  split; intros x Hx; cbn [cosf sinf ref_libm]; rewrite Hx; reflexivity.
Qed.

Lemma f32_add_comm (x y : float32) : SFadd 24 128 x y = SFadd 24 128 y x.
Proof.
  destruct x as [[|]|[|]| |sx mx ex], y as [[|]|[|]| |sy my ey]; try reflexivity.
  unfold SFadd. rewrite (Z.min_comm ex ey). rewrite Z.add_comm. reflexivity.
Qed.

Lemma f32_mul_finite_zero (x z : float32) :
  is_finite32 x = true -> is_zero32 z = true ->
  is_zero32 (SFmul 24 128 x z) = true.
Proof.
  destruct x, z; try discriminate; reflexivity.
Qed.

Lemma f32_mul_nonfinite_zero (x z : float32) :
  is_finite32 x = false -> is_zero32 z = true -> SFmul 24 128 x z = S754_nan.
Proof.
  destruct x, z; try discriminate; reflexivity.
Qed.

Lemma f32_sum_zeros (xs : list float32) :
  Forall (fun x => is_zero32 x = true) xs ->
  fold_left (SFadd 24 128) xs f32_zero = f32_zero.
Proof.
  induction 1 as [|x xs Hx _ IH]; cbn [fold_left]; auto.
  destruct x as [[|]| | |]; try discriminate; exact IH.
Qed.

Lemma f32_sum_nan (xs : list float32) :
  forall a, a = S754_nan \/ In S754_nan xs ->
  fold_left (SFadd 24 128) xs a = S754_nan.
Proof.
  induction xs as [|x xs IH]; intros a [Ha|Hin]; cbn [fold_left].
  - exact Ha.
  - destruct Hin.
  - apply IH. left. subst a. reflexivity.
  - apply IH. destruct Hin as [->|Hin]; [left|right; exact Hin].
    destruct a; reflexivity.
Qed.

(** [+0.0] plus [t] is [t], unless [t] is [-0.0]. *)
Lemma f32_zero_plus (t : float32) :
  t <> S754_zero true -> SFadd 24 128 f32_zero t = t.
Proof.
  destruct t as [[|]|[|]| |]; intros H; try reflexivity; congruence.
Qed.

Lemma f32_add_zero_zero (x : float32) :
  SFadd 24 128 (SFadd 24 128 x f32_zero) f32_zero = SFadd 24 128 x f32_zero.
Proof.
  destruct x as [[|]|[|]| |s m e]; reflexivity.
Qed.

Lemma f32_add_zero_one (x : float32) :
  SFadd 24 128 (SFadd 24 128 x f32_zero) f32_one = SFadd 24 128 x f32_one.
Proof.
  destruct x as [[|]|[|]| |s m e]; reflexivity.
Qed.

Section Float32.

Variable L : libm.

Lemma dot_finite_zero (l beta : vec (F32 L)) :
  length l = length beta ->
  Forall (fun x => is_finite32 x = true) l ->
  Forall (fun x => is_zero32 x = true) beta ->
  dot l beta = f32_zero.
Proof.
  intros Hl Hf Hz. unfold dot, fsum. apply f32_sum_zeros.
  revert beta Hl Hz. induction Hf as [|x l Hx _ IH]; intros [|z beta] Hl Hz;
    cbn [zipWith]; try constructor.
  - inversion Hz; subst. apply f32_mul_finite_zero; auto.
  - inversion Hz; subst. apply IH; auto.
Qed.

Lemma dot_nonfinite_zero (l beta : vec (F32 L)) :
  length l = length beta ->
  Exists (fun x => is_finite32 x = false) l ->
  Forall (fun x => is_zero32 x = true) beta ->
  dot l beta = S754_nan.
Proof.
  intros Hl He Hz. unfold dot, fsum. apply f32_sum_nan. right.
  revert beta Hl Hz. induction He as [x l Hx|x l _ IH]; intros [|z beta] Hl Hz;
    try discriminate; cbn [zipWith]; inversion Hz; subst.
  - left. apply f32_mul_nonfinite_zero; auto.
  - right. apply IH; auto.
Qed.

Hypothesis HL : libm_ok L.

(** The rotation of a zero vector, for a perturbed angle [t] in the
    window: [r / t] is a zero, [cos t] is 1 and [sin t] multiplies
    zeros. *)
Lemma rodrigues1_zero32 (e : nat -> float32) (r : list float32) :
  zero_vector r ->
  tiny_angle (perturbed_angle (A := F32 L) e r) = true ->
  rodrigues1 (A := F32 L) e r = identity3.
Proof.
  intros [s0 [s1 [s2 ->]]] Ht.
  unfold rodrigues1. unfold perturbed_angle in Ht.
  set (t := fsqrt (F32 L) _) in *. clearbody t.
  destruct t as [|s|  |s m x]; try discriminate Ht.
  destruct s; try discriminate Ht.
  assert (Hs : small_angle (S754_finite false m x) = true) by exact Ht.
  cbn [F32 fcos fsin F fzero fone fadd fsub fmul fdiv fneg].
  rewrite (cos_small HL _ Hs), (sin_small HL _ Hs).
  destruct s0, s1, s2; reflexivity.
Qed.

Lemma rodrigues_from_zero32 (eps : noise (F32 L)) (r : mat (F32 L)) :
  Forall zero_vector r ->
  forall i,
  (forall j, j < length r ->
     tiny_angle (perturbed_angle (A := F32 L) (eps (i + j)) (nth j r [])) = true) ->
  rodrigues_from i eps r = repeat identity3 (length r).
Proof.
  induction 1 as [|ri r Hri _ IH]; intros i H; cbn [rodrigues_from length repeat]; auto.
  f_equal.
  - apply rodrigues1_zero32; auto.
    specialize (H 0). rewrite Nat.add_0_r in H. apply H. simpl. apply Nat.lt_0_succ.
  - apply IH. intros j Hj. specialize (H (S j)).
    rewrite Nat.add_succ_r in H. apply H. simpl.
    apply -> Nat.succ_lt_mono. exact Hj.
Qed.

Lemma rodrigues_zero32 (eps : noise (F32 L)) (r : mat (F32 L)) :
  Forall zero_vector r -> regular_draw eps r ->
  _rodrigues eps r = repeat identity3 (length r).
Proof.
  intros Hr He. apply rodrigues_from_zero32; auto.
Qed.

End Float32.

(** On the window the rotations, and with them the whole pass, are the
    same for every cosine and sine that meet [libm_ok]. *)
Lemma rodrigues1_libm (L L' : libm) (e : nat -> float32) (r : list float32) :
  libm_ok L -> libm_ok L' ->
  small_angle (perturbed_angle (A := F32 L) e r) = true ->
  rodrigues1 (A := F32 L') e r = rodrigues1 (A := F32 L) e r.
Proof.
  intros HL HL' Ht. unfold rodrigues1. unfold perturbed_angle in Ht.
  cbn [F32 fcos fsin F fzero fone fadd fsub fmul fdiv fneg fsqrt] in *.
  set (t := SFsqrt 24 128 _) in *.
  rewrite (cos_small HL _ Ht), (sin_small HL _ Ht).
  rewrite (cos_small HL' _ Ht), (sin_small HL' _ Ht). reflexivity.
Qed.

Lemma rodrigues_from_libm (L L' : libm) (eps : nat -> nat -> float32)
    (r : list (list float32)) :
  libm_ok L -> libm_ok L' ->
  forall i,
  (forall j, j < length r ->
     small_angle (perturbed_angle (A := F32 L) (eps (i + j)) (nth j r [])) = true) ->
  rodrigues_from (A := F32 L') i eps r = rodrigues_from (A := F32 L) i eps r.
Proof.
  intros HL HL'. induction r as [|ri r IH]; intros i H; cbn [rodrigues_from]; auto.
  f_equal.
  - apply rodrigues1_libm; auto.
    specialize (H 0). rewrite Nat.add_0_r in H. apply H. simpl. apply Nat.lt_0_succ.
  - apply IH. intros j Hj. specialize (H (S j)).
    rewrite Nat.add_succ_r in H. apply H. simpl.
    apply -> Nat.succ_lt_mono. exact Hj.
Qed.

Lemma forward_libm (L L' : libm) (b : SMPL (F32 L)) (eps : nat -> nat -> float32)
    (beta : list float32) (pose : list (list float32)) (trans : list float32)
    (simplify : bool) :
  libm_ok L -> libm_ok L' ->
  Forall (fun r => length r = 3) pose ->
  (forall i, i < length pose ->
     small_angle (perturbed_angle (A := F32 L) (eps i) (nth i pose [])) = true) ->
  forward (A := F32 L') (@rebase L L' b) eps beta pose trans simplify
  = forward (A := F32 L) b eps beta pose trans simplify.
Proof.
  intros HL HL' Hp Hs. unfold forward.
  pose proof (@rodrigues_from_libm L L' eps pose HL HL' 0 Hs) as E.
  change (rodrigues_from (A := F32 L') 0 eps pose)
    with (_rodrigues (A := F32 L') eps pose) in E.
  change (rodrigues_from (A := F32 L) 0 eps pose)
    with (_rodrigues (A := F32 L) eps pose) in E.
  rewrite (@reshape_rows_concat (F (F32 L)) 3 pose) by (auto; lia).
  rewrite (@reshape_rows_concat (F (F32 L')) 3 pose) by (auto; lia).
  cbn [bind]. rewrite E. reflexivity.
Qed.

Lemma ex_bundle32_consistent (L : libm) : consistent (ex_bundle32 L) 1 24 1.
Proof.
  constructor; repeat first [reflexivity | lia | split | constructor].
Qed.

Lemma zero_pose32_zero (n : nat) : Forall zero_vector (zero_pose32 n).
Proof.
  apply Forall_forall. intros r Hr. apply repeat_spec in Hr. subst r.
  exists false, false, false. reflexivity.
Qed.

Lemma zero_vector_length (r : list float32) : zero_vector r -> length r = 3.
Proof.
  intros [s0 [s1 [s2 ->]]]. reflexivity.
Qed.

Lemma tiny_pose32_rows : Forall (fun r : list float32 => length r = 3) tiny_pose32.
Proof.
  repeat constructor.
Qed.

(** Every vector of a 24-vector pose has its angle checked by running
    the float32 operations. *)
Ltac rows24 :=
  let i := fresh "i" in
  let Hi := fresh "Hi" in
  intros i Hi; do 24 (destruct i as [|i]; [reflexivity|]); simpl in Hi; lia.

(** * The claims *)

(** ** The simplify flag (lines 136-137) *)

(** C4.  With [simplify] set the pose-corrective stage is skipped: the
    posed vertices are the shaped vertices, whatever the rotations, and
    the result of [forward] does not depend on the pose-corrective basis. *)
Theorem simplify_skips_pose_correctives (A : Arith) (b : SMPL A)
    (eps : noise A) (beta : vec A) (pose : mat A) (trans : vec A)
    (R : ten3 A) (v_shaped : mat A) (pd : ten3 A) :
  v_posed_of b R v_shaped true = Ok v_shaped /\
  forward (with_posedirs b pd) eps beta pose trans true
  = forward b eps beta pose trans true.
Proof.
  split; reflexivity.
Qed.

(** ** A kinematic tree out of order (lines 130-131, 149-163) *)

(** C7, as stated, fails: on the shuffled tree [forward] stops with an
    [IndexError] raised inside the loop, not with an
    [InvalidTopologyError] raised when the bundle is built. *)
Lemma shuffled_tree_counterexample :
  topological ex_kintree_shuffled = false /\
  forward (with_kintree ex_bundle ex_kintree_shuffled) (ex_noise 0) [0%R]
          ex_pose [0%R; 0%R; 0%R] true = Err IndexError /\
  exn_name IndexError <> "InvalidTopologyError".
Proof.
  repeat split; try reflexivity. discriminate.
Qed.

(** C7, amended.  When the kinematic tree is not in topological order
    (a parent id is unknown, or a parent column is not strictly smaller
    than the column of its child) [forward] raises and returns no mesh. *)
Theorem out_of_order_tree_raises (A : Arith) (b : SMPL A) (eps : noise A)
    (beta : vec A) (pose : mat A) (trans : vec A) (simplify : bool) :
  topological (kintree_table b) = false ->
  exists e, forward b eps beta pose trans simplify = Err e.
Proof.
  intros Ht. unfold topological in Ht. unfold forward.
  destruct (parent (kintree_table b)) as [ps|e] eqn:Ep; [|exists e; reflexivity].
  cbn [bind].
  destruct (v_shaped_of b beta) as [vs|e]; [|exists e; reflexivity]. cbn [bind].
  destruct (matmul2 (J_regressor b) vs) as [J|e]; [|exists e; reflexivity].
  cbn [bind].
  destruct (reshape_rows 3 (concat pose)) as [r|e]; [|exists e; reflexivity].
  cbn [bind].
  destruct (v_posed_of b (_rodrigues eps r) vs simplify) as [vp|e];
    [|exists e; reflexivity].
  cbn [bind].
  destruct (fk_root (_rodrigues eps r) J) as [G0|e]; [|exists e; reflexivity].
  cbn [bind].
  destruct (@fk_loop_out_of_order A (_rodrigues eps r) J ps [G0]) as [e He].
  - rewrite (parent_fst _ Ep).
    rewrite <- (length_map fst ps), (parent_fst _ Ep), length_seq. reflexivity.
  - apply Exists_exists.
    assert (Hn : ~ Forall (fun ip => snd ip < fst ip) ps).
    { intros HF. rewrite Forall_forall in HF.
      assert (forallb (fun ip => snd ip <? fst ip) ps = true); [|congruence].
      apply forallb_forall. intros ip Hip. apply Nat.ltb_lt; auto. }
    apply neg_Forall_Exists_neg in Hn.
    + apply Exists_exists in Hn. destruct Hn as [ip [Hin Hip]].
      exists ip. split; auto. lia.
    + intros ip. destruct (lt_dec (snd ip) (fst ip)); [left | right]; auto.
  - exists e. rewrite He. reflexivity.
Qed.

Lemma out_of_order_tree_raises_witness :
  topological (kintree_table (with_kintree ex_bundle ex_kintree_shuffled)) = false /\
  exists e, forward (with_kintree ex_bundle ex_kintree_shuffled) (ex_noise 0)
                    [0%R] ex_pose [0%R; 0%R; 0%R] false = Err e.
Proof.
  split; [reflexivity|].
  apply (@out_of_order_tree_raises RA). reflexivity.
Defined.

(** ** Shape coefficients of the wrong length (line 132) *)

(** C8, as stated, fails: a mismatch raises the library's [RuntimeError],
    not a typed [DimensionMismatch]; and a single coefficient given to a
    bundle with two shape components raises nothing: it is broadcast
    over the two components. *)
Lemma shape_coeffs_mismatch_counterexample :
  (v_shaped_of ex_bundle2 [1%R; 1%R; 1%R] = Err (RuntimeError "tensordot") /\
   exn_name (RuntimeError "tensordot") <> "DimensionMismatch") /\
  v_shaped_of ex_bundle2 [2%R]
  = Ok [ [ ((1 + 2) * 2 + 0)%R; ((3 + 4) * 2 + 1)%R; ((5 + 6) * 2 + 0)%R ] ].
Proof.
  split; [split; [reflexivity | discriminate]|].
  cbv -[Rplus Rmult IZR].
  assert (E : forall a b c a' b' c' : R, a = a' -> b = b' -> c = c' ->
              @Ok (list (list R)) [ [a; b; c] ] = Ok [ [a'; b'; c'] ])
    by (intros; subst; reflexivity).
  apply E; ring.
Qed.

(** C8, amended.  When the number of coefficients differs from [S] and
    neither of the two sizes is 1, the contraction raises a
    [RuntimeError] and [forward] returns no mesh. *)
Theorem shape_coeffs_mismatch_raises (A : Arith) (b : SMPL A) (beta : vec A)
    (V S : nat) :
  1 <= V -> shape3 V 3 S (shapedirs b) ->
  length beta <> S -> length beta <> 1 -> S <> 1 ->
  v_shaped_of b beta = Err (RuntimeError "tensordot") /\
  forall (eps : noise A) (pose : mat A) (trans : vec A) (simplify : bool),
  exists e, forward b eps beta pose trans simplify = Err e /\
            (is_ok (parent (kintree_table b)) = true ->
             e = RuntimeError "tensordot").
Proof.
  intros HV Hsd Hne H1 HS.
  assert (Hv : v_shaped_of b beta = Err (RuntimeError "tensordot")).
  { unfold v_shaped_of, tensordot_31.
    rewrite (@dim2_shape3 A V 3 S) by (auto; lia).
    unfold contract_ok.
    apply Nat.eqb_neq in H1, HS. rewrite H1, HS.
    assert (E : (S =? length beta) = false) by (apply Nat.eqb_neq; congruence).
    rewrite E. reflexivity. }
  split; auto. intros eps pose trans simplify. unfold forward.
  destruct (parent (kintree_table b)) as [ps|e]; cbn [bind is_ok].
  - rewrite Hv. cbn [bind]. eauto.
  - exists e. split; auto. discriminate.
Qed.

Lemma shape_coeffs_mismatch_raises_witness :
  v_shaped_of ex_bundle2 [1%R; 1%R; 1%R] = Err (RuntimeError "tensordot") /\
  forall (eps : noise RA) (pose : mat RA) (trans : vec RA) (simplify : bool),
  exists e, forward ex_bundle2 eps [1%R; 1%R; 1%R] pose trans simplify = Err e /\
            (is_ok (parent (kintree_table ex_bundle2)) = true ->
             e = RuntimeError "tensordot").
Proof.
  apply (@shape_coeffs_mismatch_raises RA ex_bundle2 [1%R; 1%R; 1%R] 1 2).
  - lia.
  - repeat first [reflexivity | split | constructor].
  - simpl; lia.
  - simpl; lia.
  - lia.
Defined.

(** ** The joint count of the rest-pose correction (lines 165-177) *)

(** C10.  On a bundle whose arrays are consistent for [Jn] joints, with a
    pose of [Jn] rotations: if [Jn] is not 24 the rest-pose correction
    fails in its [torch.cat] and [forward] raises that [RuntimeError]
    instead of returning a mesh; if [Jn] is 24 the correction succeeds
    and [forward] returns a mesh. *)
Theorem forward_needs_24_joints (A : Arith) (b : SMPL A) (eps : noise A)
    (beta : vec A) (pose : mat A) (trans : vec A) (simplify : bool)
    (V Jn : nat) :
  consistent b V Jn (length beta) -> shape2 Jn 3 pose -> length trans = 3 ->
  (Jn <> 24 ->
   forward b eps beta pose trans simplify = Err (RuntimeError "cat")) /\
  (Jn = 24 ->
   exists ps Ts vs,
     parent (kintree_table b) = Ok ps /\
     rest_correct (joints b beta) (G_all (_rodrigues eps pose) (joints b beta) ps)
       = Ok Ts /\
     forward b eps beta pose trans simplify = Ok (vs, f b)).
Proof.
  intros Hc Hpose Htr. split; intros HJn.
  - destruct (@forward_prefix A b eps beta pose simplify V Jn Hc Hpose)
      as [ps [Hps [Hvs [Hj [Hr [Hpo [Hroot [Hloop [HG [HJ _]]]]]]]]]].
    unfold forward.
    rewrite Hps. cbn [bind]. rewrite Hvs. cbn [bind]. rewrite Hj. cbn [bind].
    rewrite Hr. cbn [bind]. rewrite Hpo. cbn [bind]. rewrite Hroot. cbn [bind].
    rewrite Hloop. cbn [bind].
    rewrite rest_correct_bad; [reflexivity|]. destruct HJ as [HJl _]. congruence.
  - subst Jn.
    destruct (@forward_prefix A b eps beta pose simplify V 24 Hc Hpose)
      as [ps [Hps [_ [_ [_ [_ [_ [_ [HG [HJ _]]]]]]]]]].
    destruct (@forward_ok A b eps beta pose trans simplify V Hc Hpose Htr)
      as [ps' [Hps' Hf]].
    exists ps, (zipWith relative (G_all (_rodrigues eps pose) (joints b beta) ps)
                        (joints b beta)),
           (mesh b eps beta pose trans simplify ps').
    repeat split; auto. apply rest_correct_ok; auto.
Qed.

Lemma forward_needs_24_joints_witness :
  exists ps Ts vs,
    parent (kintree_table ex_bundle) = Ok ps /\
    rest_correct (joints ex_bundle [0%R])
                 (G_all (_rodrigues (ex_noise 0) ex_pose) (joints ex_bundle [0%R]) ps)
      = Ok Ts /\
    forward ex_bundle (ex_noise 0) [0%R] ex_pose [0%R; 0%R; 0%R] false
      = Ok (vs, f ex_bundle).
Proof.
  apply (@forward_needs_24_joints RA ex_bundle (ex_noise 0) [0%R] ex_pose
           [0%R; 0%R; 0%R] false 1 24).
  - exact ex_bundle_consistent.
  - exact ex_pose_shape.
  - reflexivity.
  - reflexivity.
Defined.

(** ** Forward kinematics (lines 147-177) *)

Section ForwardKinematics.

Variable A : Arith.

Lemma G_fold_nth (R : ten3 A) (J : mat A) (ps : list (nat * nat)) :
  forall Gs : list (mat A),
  map fst ps = seq (length Gs) (length ps) ->
  Forall (fun ip => snd ip < fst ip) ps ->
  (forall k, k < length Gs ->
     nth k (fold_left (G_step R J) ps Gs) [] = nth k Gs []) /\
  (forall i p, In (i, p) ps ->
     nth i (fold_left (G_step R J) ps Gs) []
     = mm (nth p (fold_left (G_step R J) ps Gs) [])
          (homog (nth i R []) (zipWith (fsub A) (nth i J []) (nth p J [])))).
Proof.
  induction ps as [|[i p] ps IH]; intros Gs Hfst Hord.
  - split; [reflexivity | intros ? ? []].
  - cbn [length map fst seq] in Hfst. inversion Hfst as [[Hi Hrest]].
    clear Hfst. subst i.
    inversion Hord as [|? ? Hp Hord']; subst. cbn [fst snd] in Hp.
    cbn [fold_left].
    assert (Hlen : length (G_step R J Gs (length Gs, p)) = S (length Gs)).
    { unfold G_step. rewrite length_app. simpl. lia. }
    destruct (IH (G_step R J Gs (length Gs, p))) as [IHa IHb]; auto.
    { rewrite Hlen. exact Hrest. }
    assert (Hpre : forall k, k < length Gs ->
              nth k (G_step R J Gs (length Gs, p)) [] = nth k Gs []).
    { intros k Hk. unfold G_step. apply app_nth1. exact Hk. }
    split.
    + intros k Hk. rewrite IHa by lia. apply Hpre. exact Hk.
    + intros i' p' [Heq | Hin]; [|apply IHb; exact Hin].
      inversion Heq; subst i' p'.
      rewrite !IHa by lia. rewrite (Hpre p) by exact Hp.
      unfold G_step. cbn [fst snd]. rewrite nth_middle. reflexivity.
Qed.

End ForwardKinematics.

(** C5.  On a consistent 24-joint bundle the sweep over the joints
    succeeds and yields [G_0 = [R_0 | J_0]] and, for every joint [i] with
    parent [p] (which comes before it),
    [G_i = G_p . [R_i | J_i - J_p]]; the transforms handed on are
    [T_j = G_j - pack(G_j . [J_j; 0])]. *)
Theorem forward_kinematics_formula (A : Arith) (b : SMPL A) (eps : noise A)
    (beta : vec A) (pose : mat A) (V : nat) :
  consistent b V 24 (length beta) -> shape2 24 3 pose ->
  let R := _rodrigues eps pose in
  let J := joints b beta in
  exists ps Gs Ts,
    parent (kintree_table b) = Ok ps /\
    (G0 <- fk_root R J ;; fk_loop R J [G0] ps) = Ok Gs /\
    rest_correct J Gs = Ok Ts /\
    length Gs = 24 /\ length Ts = 24 /\
    nth 0 Gs [] = homog (nth 0 R []) (nth 0 J []) /\
    (forall i p, In (i, p) ps ->
       1 <= i < 24 /\ p < i /\
       nth i Gs []
       = mm (nth p Gs [])
            (homog (nth i R []) (zipWith (fsub A) (nth i J []) (nth p J [])))) /\
    (forall j, j < 24 -> nth j Ts [] = relative (nth j Gs []) (nth j J [])).
Proof.
  intros Hc Hpose R J.
  destruct (@forward_prefix A b eps beta pose true V 24 Hc Hpose)
    as [ps [Hps [_ [_ [_ [_ [Hroot [Hloop [HG [HJ [_ [Hfst Hord]]]]]]]]]]]].
  fold R in Hroot, Hloop, HG. fold J in Hroot, Hloop, HG, HJ.
  exists ps, (G_all R J ps), (zipWith relative (G_all R J ps) J).
  destruct (@G_fold_nth A R J ps [homog (nth 0 R []) (nth 0 J [])]) as [Ha Hb];
    auto.
  { assert (Hl : length ps = 23)
      by (rewrite <- (length_map fst ps), Hfst, length_seq; reflexivity).
    rewrite Hl. exact Hfst. }
  pose proof HG as [HGl HGf]. pose proof HJ as [HJl HJf].
  split; [exact Hps|].
  split; [rewrite Hroot; cbn [bind]; exact Hloop|].
  split; [apply rest_correct_ok; auto|].
  split; [exact HGl|].
  split; [rewrite zipWith_length; congruence|].
  split; [apply (Ha 0); simpl; lia|].
  split.
  - intros i p Hin.
    assert (Hi : In i (map fst ps)) by (apply in_map_iff; exists (i, p); auto).
    rewrite Hfst in Hi. apply in_seq in Hi.
    rewrite Forall_forall in Hord.
    split; [lia|]. split; [apply (Hord (i, p) Hin) | apply Hb; exact Hin].
  - intros j Hj. apply nth_zipWith; congruence.
Qed.

Lemma forward_kinematics_formula_witness :
  let R := _rodrigues (ex_noise 0) ex_pose in
  let J := joints ex_bundle [0%R] in
  exists ps Gs Ts,
    parent (kintree_table ex_bundle) = Ok ps /\
    (G0 <- fk_root R J ;; fk_loop R J [G0] ps) = Ok Gs /\
    rest_correct J Gs = Ok Ts /\
    length Gs = 24 /\ length Ts = 24 /\
    nth 0 Gs [] = homog (nth 0 R []) (nth 0 J []) /\
    (forall i p, In (i, p) ps ->
       1 <= i < 24 /\ p < i /\
       nth i Gs []
       = mm (nth p Gs [])
            (homog (nth i R []) (zipWith Rminus (nth i J []) (nth p J [])))) /\
    (forall j, j < 24 -> nth j Ts [] = relative (nth j Gs []) (nth j J [])).
Proof.
  apply (@forward_kinematics_formula RA ex_bundle (ex_noise 0) [0%R] ex_pose 1).
  - exact ex_bundle_consistent.
  - exact ex_pose_shape.
Defined.

(** ** Linear blend skinning (lines 178-188) *)

Section ZeroWeights.

Variable A : Arith.

Hypothesis mul_0_l : forall x : A, fmul A (fzero A) x = fzero A.
Hypothesis add_0_0 : fadd A (fzero A) (fzero A) = fzero A.




End ZeroWeights.



(** ** The global translation (lines 186-189) *)

(** C9.  In float32, on a consistent bundle with 24 joints and for the
    zero pose: an evaluation of [forward] with translation [(0, 0, 0)]
    returns [V] vertices, and an evaluation with translation [(1, 0, 0)],
    with a draw of its own, returns vertex by vertex those vertices plus
    [(1, 0, 0)], with the same faces.  The two draws are independent;
    each gives every vector a perturbed angle that is positive and at
    most [2^-13].  The zero shape of the canonical setup is one [beta]. *)
Theorem translation_offset (L : libm) (b : SMPL (F32 L))
    (eps0 eps1 : noise (F32 L)) (beta : vec (F32 L)) (simplify : bool)
    (V : nat) :
  libm_ok L ->
  consistent b V 24 (length beta) ->
  regular_draw eps0 (zero_pose32 24) ->
  regular_draw eps1 (zero_pose32 24) ->
  exists ps,
    parent (kintree_table b) = Ok ps /\
    forward b eps0 beta (zero_pose32 24) [f32_zero; f32_zero; f32_zero] simplify
    = Ok (mesh b eps0 beta (zero_pose32 24) [f32_zero; f32_zero; f32_zero]
               simplify ps,
          f b) /\
    length (mesh b eps0 beta (zero_pose32 24) [f32_zero; f32_zero; f32_zero]
                 simplify ps)
    = V /\
    forward b eps1 beta (zero_pose32 24) [f32_one; f32_zero; f32_zero] simplify
    = Ok (map (fun p => zipWith (SFadd 24 128) p [f32_one; f32_zero; f32_zero])
              (mesh b eps0 beta (zero_pose32 24) [f32_zero; f32_zero; f32_zero]
                    simplify ps),
          f b).
Proof.
  intros HL Hc H0 H1.
  assert (Hpose : shape2 24 3 (zero_pose32 24 : mat (F32 L))).
  { split; [reflexivity | repeat constructor]. }
  pose proof (zero_pose32_zero 24) as Hz.
  destruct (@forward_ok (F32 L) b eps0 beta (zero_pose32 24)
              [f32_zero; f32_zero; f32_zero] simplify V Hc Hpose eq_refl)
    as [ps [Hps F0]].
  destruct (@forward_ok (F32 L) b eps1 beta (zero_pose32 24)
              [f32_one; f32_zero; f32_zero] simplify V Hc Hpose eq_refl)
    as [ps' [Hps' F1]].
  rewrite Hps in Hps'. injection Hps' as <-.
  destruct (@forward_prefix (F32 L) b eps0 beta (zero_pose32 24) simplify V 24
              Hc Hpose)
    as [ps' [_ [_ [_ [_ [_ [_ [_ [_ [_ [[HP _] _]]]]]]]]]]].
  exists ps. split; [exact Hps|]. split; [exact F0|]. split.
  - unfold mesh. destruct Hc as [_ _ _ _ _ _ [Hw _] _ _].
    rewrite zipWith_length; congruence.
  - rewrite F1. f_equal. f_equal. unfold mesh.
    rewrite (@rodrigues_zero32 L HL eps0 (zero_pose32 24) Hz H0).
    rewrite (@rodrigues_zero32 L HL eps1 (zero_pose32 24) Hz H1).
    rewrite map_zipWith. apply zipWith_ext_in.
    intros w p _. unfold skinned, blend. cbn [seq map firstn zipWith].
    cbn [F32 fadd fzero fone].
    rewrite f32_add_zero_one, !f32_add_zero_zero. reflexivity.
Qed.

Lemma translation_offset_witness :
  exists ps,
    parent (kintree_table (ex_bundle32 ref_libm)) = Ok ps /\
    forward (ex_bundle32 ref_libm) ex_draw_a [f32_zero] (zero_pose32 24)
            [f32_zero; f32_zero; f32_zero] false
    = Ok (mesh (ex_bundle32 ref_libm) ex_draw_a [f32_zero] (zero_pose32 24)
               [f32_zero; f32_zero; f32_zero] false ps,
          f (ex_bundle32 ref_libm)) /\
    length (mesh (ex_bundle32 ref_libm) ex_draw_a [f32_zero] (zero_pose32 24)
                 [f32_zero; f32_zero; f32_zero] false ps) = 1 /\
    forward (ex_bundle32 ref_libm) ex_draw_b [f32_zero] (zero_pose32 24)
            [f32_one; f32_zero; f32_zero] false
    = Ok (map (fun p => zipWith (SFadd 24 128) p [f32_one; f32_zero; f32_zero])
              (mesh (ex_bundle32 ref_libm) ex_draw_a [f32_zero] (zero_pose32 24)
                    [f32_zero; f32_zero; f32_zero] false ps),
          f (ex_bundle32 ref_libm)).
Proof.
  apply (@translation_offset ref_libm (ex_bundle32 ref_libm) ex_draw_a ex_draw_b
           [f32_zero] false 1).
  - exact ref_libm_ok.
  - exact (ex_bundle32_consistent ref_libm).
  - rows24.
  - rows24.
Defined.

(** ** Shape blending in float32 (lines 132-133) *)

(** C3, as stated, fails in float32: with the all-zero coefficients a
    template coordinate [-0.0] comes out as [+0.0], and an infinite
    entry of the shape basis turns the coordinate into NaN (0 times
    infinity), so the shaped vertices are not the template bit for bit. *)
Lemma zero_coeffs_change_template_counterexample :
  v_shaped_of (with_v_template (ex_bundle32 ref_libm)
                 [ [S754_zero true; f32_one; f32_zero] ]) [f32_zero]
  = Ok [ [S754_zero false; f32_one; f32_zero] ] /\
  [ [S754_zero false; f32_one; f32_zero] ]
  <> [ [S754_zero true; f32_one; f32_zero] ] /\
  v_shaped_of (with_shapedirs (ex_bundle32 ref_libm)
                 [ [ [S754_infinity false]; [f32 2 0]; [f32 3 0] ] ]) [f32_zero]
  = Ok [ [S754_nan; f32_one; f32_zero] ] /\
  [ [S754_nan; f32_one; f32_zero] ] <> v_template (ex_bundle32 ref_libm).
Proof.
  repeat split; try reflexivity; discriminate.
Qed.

(** C3, amended.  In float32 ShapeBlend computes, for every vertex [v]
    and coordinate [c],
    [shapedVertices[v][c] = templateVertices[v][c] + sum_s shapeBasis[v][c][s] * ShapeCoeffs[s]].
    For all-zero coefficients (of either sign): where the shape basis is
    finite the shaped coordinate is the template coordinate bit for bit,
    except that a template coordinate [-0.0] comes out as [+0.0]; where
    the shape basis has an infinite or NaN entry it is NaN. *)
Theorem shape_blend_formula (L : libm) (b : SMPL (F32 L)) (beta : vec (F32 L))
    (V : nat) :
  1 <= V ->
  shape3 V 3 (length beta) (shapedirs b) ->
  shape2 V 3 (v_template b) ->
  exists vs : mat (F32 L),
    v_shaped_of b beta = Ok vs /\
    length vs = V /\
    forall v c, v < V -> c < 3 ->
      let t := nth c (nth v (v_template b) []) f32_zero in
      let l := nth c (nth v (shapedirs b) []) [] in
      let x := nth c (nth v vs []) f32_zero in
      x = SFadd 24 128 t (dot l beta) /\
      (Forall (fun z => is_zero32 z = true) beta ->
         (Forall (fun y => is_finite32 y = true) l ->
            (t <> S754_zero true -> x = t) /\
            (t = S754_zero true -> x = S754_zero false)) /\
         (Exists (fun y => is_finite32 y = false) l -> x = S754_nan)).
Proof.
  intros HV Hsd Htp.
  destruct (@v_shaped_of_ok (F32 L) b beta V HV Hsd Htp) as [Hvs [Hl _]].
  exists (shaped b beta). split; [exact Hvs|]. split; [exact Hl|].
  intros v c Hv Hc. cbv zeta.
  destruct (@shaped_entry (F32 L) b beta V v c Hsd Htp Hv Hc) as [He Hlen].
  change (fzero (F32 L)) with f32_zero in He. rewrite He.
  change (fadd (F32 L)) with (SFadd 24 128).
  set (t := nth c (nth v (v_template b) []) f32_zero).
  set (l := nth c (nth v (shapedirs b) []) []) in *.
  split; [apply f32_add_comm|]. intros Hz. split.
  - intros Hf. rewrite (@dot_finite_zero L l beta Hlen Hf Hz).
    split; [apply f32_zero_plus|]. intros ->. reflexivity.
  - intros Hn. rewrite (@dot_nonfinite_zero L l beta Hlen Hn Hz). reflexivity.
Qed.

Lemma shape_blend_formula_witness :
  exists vs : mat (F32 ref_libm),
    v_shaped_of (ex_bundle32 ref_libm) [f32_zero] = Ok vs /\
    length vs = 1 /\
    forall v c, v < 1 -> c < 3 ->
      nth c (nth v vs []) f32_zero
      = SFadd 24 128 (nth c (nth v (v_template (ex_bundle32 ref_libm)) []) f32_zero)
                     (dot (nth c (nth v (shapedirs (ex_bundle32 ref_libm)) []) [])
                          [f32_zero]) /\
      (Forall (fun z => is_zero32 z = true) [f32_zero] ->
         (Forall (fun y => is_finite32 y = true)
                 (nth c (nth v (shapedirs (ex_bundle32 ref_libm)) []) []) ->
            (nth c (nth v (v_template (ex_bundle32 ref_libm)) []) f32_zero
               <> S754_zero true ->
             nth c (nth v vs []) f32_zero
             = nth c (nth v (v_template (ex_bundle32 ref_libm)) []) f32_zero) /\
            (nth c (nth v (v_template (ex_bundle32 ref_libm)) []) f32_zero
               = S754_zero true ->
             nth c (nth v vs []) f32_zero = S754_zero false)) /\
         (Exists (fun y => is_finite32 y = false)
                 (nth c (nth v (shapedirs (ex_bundle32 ref_libm)) []) []) ->
          nth c (nth v vs []) f32_zero = S754_nan)).
Proof.
  apply (@shape_blend_formula ref_libm (ex_bundle32 ref_libm) [f32_zero] 1).
  - lia.
  - repeat first [reflexivity | split | constructor].
  - repeat first [reflexivity | split | constructor].
Defined.

(** ** The rotation of a zero vector (lines 44-71) *)

(** C2.  In float32, for a batch of zero vectors (entries [+0.0] or
    [-0.0]) and every draw that gives each of them a perturbed angle
    [theta] (line 45) that is positive and at most [2^-13], [_rodrigues]
    returns the identity matrix for every vector, bit for bit: [r / theta]
    is a zero, [cos theta] is 1 and [sin theta] multiplies zeros.  The
    result is the same for every such draw: it does not depend on the
    perturbation. *)
Theorem rodrigues_zero_is_identity (L : libm) (eps : noise (F32 L))
    (r : mat (F32 L)) :
  libm_ok L -> Forall zero_vector r -> regular_draw eps r ->
  _rodrigues eps r = repeat identity3 (length r) /\
  (forall eps' : noise (F32 L), regular_draw eps' r ->
     _rodrigues eps' r = _rodrigues eps r).
Proof.
  intros HL Hr He.
  rewrite (@rodrigues_zero32 L HL eps r Hr He). split; [reflexivity|].
  intros eps' He'. apply rodrigues_zero32; auto.
Qed.

Lemma rodrigues_zero_is_identity_witness :
  _rodrigues (A := F32 ref_libm) ex_draw_a (zero_pose32 2)
  = repeat identity3 (length (zero_pose32 2)) /\
  (forall eps' : noise (F32 ref_libm), regular_draw eps' (zero_pose32 2) ->
     _rodrigues eps' (zero_pose32 2)
     = _rodrigues (A := F32 ref_libm) ex_draw_a (zero_pose32 2)).
Proof.
  apply (@rodrigues_zero_is_identity ref_libm ex_draw_a (zero_pose32 2)).
  - exact ref_libm_ok.
  - exact (zero_pose32_zero 2).
  - intros i Hi.
    destruct i as [|[|i]]; [reflexivity | reflexivity | simpl in Hi; lia].
Defined.

(** ** The random perturbation (lines 44-45) *)

Section Samples.

Variable A : Arith.

Lemma rodrigues1_ext (e e' : nat -> A) (r : vec A) :
  (forall k, k < length r -> e k = e' k) -> rodrigues1 e r = rodrigues1 e' r.
Proof.
  intros H.
  assert (E : map (fun k => fmul A (fadd A (nth k r (fzero A)) (e k))
                                   (fadd A (nth k r (fzero A)) (e k)))
                  (seq 0 (length r))
              = map (fun k => fmul A (fadd A (nth k r (fzero A)) (e' k))
                                     (fadd A (nth k r (fzero A)) (e' k)))
                    (seq 0 (length r))).
  { apply map_ext_in. intros k Hk. apply in_seq in Hk.
    rewrite H by lia. reflexivity. }
  unfold rodrigues1. rewrite E. reflexivity.
Qed.

Lemma rodrigues_from_ext (eps eps' : noise A) (r : mat A) :
  Forall (fun ri => length ri = 3) r ->
  forall i,
  (forall j k, j < length r -> k < 3 -> eps (i + j) k = eps' (i + j) k) ->
  rodrigues_from i eps r = rodrigues_from i eps' r.
Proof.
  induction 1 as [|ri r Hri _ IH]; intros i H; cbn [rodrigues_from]; auto.
  f_equal.
  - apply rodrigues1_ext. intros k Hk. rewrite Hri in Hk.
    specialize (H 0 k). rewrite Nat.add_0_r in H. apply H; simpl; lia.
  - apply IH. intros j k Hj Hk. specialize (H (S j) k).
    rewrite Nat.add_succ_r in H. apply H; simpl; lia.
Qed.

End Samples.

(** C1, amended.  [forward] is a function of its arguments and of the
    samples drawn for the entries of the pose: two evaluations whose
    samples agree on the [N] rotation vectors return the same result, and
    the faces returned are always those of the bundle. *)
Theorem forward_depends_on_samples (A : Arith) (b : SMPL A)
    (eps1 eps2 : noise A) (beta : vec A) (pose : mat A) (trans : vec A)
    (simplify : bool) (N : nat) :
  shape2 N 3 pose ->
  (forall i k, i < N -> k < 3 -> eps1 i k = eps2 i k) ->
  forward b eps1 beta pose trans simplify
  = forward b eps2 beta pose trans simplify /\
  (forall vs fs, forward b eps1 beta pose trans simplify = Ok (vs, fs) ->
     fs = f b).
Proof.
  intros [Hl Hf] Heps. split.
  - unfold forward. rewrite reshape_rows_concat by (auto; lia).
    assert (E : _rodrigues eps1 pose = _rodrigues eps2 pose).
    { apply rodrigues_from_ext; auto. intros j k Hj Hk. apply Heps; lia. }
    cbn [bind]. rewrite E. reflexivity.
  - intros vs fs H. unfold forward in H.
    repeat (apply bind_ok in H; destruct H as [? [_ H]]).
    inversion H. reflexivity.
Qed.

Lemma forward_depends_on_samples_witness :
  forward (ex_bundle32 ref_libm) ex_draw_1 [f32_zero] tiny_pose32
          [f32_zero; f32_zero; f32_zero] false
  = forward (ex_bundle32 ref_libm)
            (fun i k => if i <? 24 then ex_draw_1 i k else f32_one)
            [f32_zero] tiny_pose32 [f32_zero; f32_zero; f32_zero] false /\
  (forall vs fs,
     forward (ex_bundle32 ref_libm) ex_draw_1 [f32_zero] tiny_pose32
             [f32_zero; f32_zero; f32_zero] false
     = Ok (vs, fs) -> fs = f (ex_bundle32 ref_libm)).
Proof.
  apply (@forward_depends_on_samples (F32 ref_libm) (ex_bundle32 ref_libm)
           ex_draw_1 (fun i k => if i <? 24 then ex_draw_1 i k else f32_one)
           [f32_zero] tiny_pose32 [f32_zero; f32_zero; f32_zero] false 24).
  - split; [reflexivity | exact tiny_pose32_rows].
  - intros i k Hi Hk. apply Nat.ltb_lt in Hi. rewrite Hi. reflexivity.
Defined.

(** C1, as stated, fails in float32.  The root vector of the pose is
    [(2^-27, 2^-27, 2^-27)].  Two draws of ordinary size (samples between
    [2^-30] and [3 * 2^-27], that is [9.3e-10] and [2.2e-8]) return first
    vertices that differ in the last bit, [-2^-27] against
    [-(2^24 - 1) * 2^-51] in the first coordinate; the draw that is the
    opposite of the root vector returns NaN. *)
Lemma perturbation_changes_mesh_counterexample :
  forward (ex_bundle32 ref_libm) ex_draw_1 [f32_zero] tiny_pose32
          [f32_zero; f32_zero; f32_zero] false
  = Ok ([ [f32 (-1) (-27); f32_one; f32 1 (-27)] ], f (ex_bundle32 ref_libm)) /\
  forward (ex_bundle32 ref_libm) ex_draw_2 [f32_zero] tiny_pose32
          [f32_zero; f32_zero; f32_zero] false
  = Ok ([ [f32 (-16777215) (-51); f32_one; f32 16777215 (-51)] ],
        f (ex_bundle32 ref_libm)) /\
  forward (ex_bundle32 ref_libm) ex_draw_cancel [f32_zero] tiny_pose32
          [f32_zero; f32_zero; f32_zero] false
  = Ok ([ [S754_nan; S754_nan; S754_nan] ], f (ex_bundle32 ref_libm)) /\
  f32 (-1) (-27) <> f32 (-16777215) (-51) /\
  regular_draw (L := ref_libm) ex_draw_1 tiny_pose32 /\
  regular_draw (L := ref_libm) ex_draw_2 tiny_pose32.
Proof.
  split; [vm_compute; reflexivity|]. split; [vm_compute; reflexivity|].
  split; [vm_compute; reflexivity|]. split; [vm_compute; discriminate|].
  split; rows24.
Qed.

(** The same three results for every cosine and sine that meet
    [libm_ok]: all the perturbed angles lie in the window. *)
Lemma perturbation_changes_mesh_any_libm (L : libm) :
  libm_ok L ->
  forward (ex_bundle32 L) ex_draw_1 [f32_zero] tiny_pose32
          [f32_zero; f32_zero; f32_zero] false
  = Ok ([ [f32 (-1) (-27); f32_one; f32 1 (-27)] ], f (ex_bundle32 L)) /\
  forward (ex_bundle32 L) ex_draw_2 [f32_zero] tiny_pose32
          [f32_zero; f32_zero; f32_zero] false
  = Ok ([ [f32 (-16777215) (-51); f32_one; f32 16777215 (-51)] ],
        f (ex_bundle32 L)) /\
  forward (ex_bundle32 L) ex_draw_cancel [f32_zero] tiny_pose32
          [f32_zero; f32_zero; f32_zero] false
  = Ok ([ [S754_nan; S754_nan; S754_nan] ], f (ex_bundle32 L)).
Proof.
  intros HL.
  change (ex_bundle32 L) with (@rebase ref_libm L (ex_bundle32 ref_libm)).
  assert (Hs : forall eps : nat -> nat -> float32,
            eps = ex_draw_1 \/ eps = ex_draw_2 \/ eps = ex_draw_cancel ->
            forall i, i < length tiny_pose32 ->
            small_angle (perturbed_angle (A := F32 ref_libm) (eps i)
                                         (nth i tiny_pose32 [])) = true).
  { intros eps [->|[->| ->]]; rows24. }
  rewrite !(@forward_libm ref_libm L _ _ _ _ _ _ ref_libm_ok HL tiny_pose32_rows)
    by (apply Hs; auto).
  repeat split; vm_compute; reflexivity.
Qed.

(** * Further properties of the code *)

(** ** The helper [_pack] (lines 91-107) *)

(** [_pack] turns a batch of columns of height 4 into a batch of 4 by 4
    matrices whose first three columns are zero and whose last column is
    the given one; the batch size is kept. *)
Theorem pack_prepends_zero_columns (A : Arith) (x : ten3 A) :
  Forall (shape2 4 1) x ->
  _pack x
  = Ok (map (map (fun r => [fzero A; fzero A; fzero A] ++ r)) x) /\
  shape3 (length x) 4 4 (map (map (fun r => [fzero A; fzero A; fzero A] ++ r)) x).
Proof.
  intros Hx. split.
  - unfold _pack. rewrite cat2_ok with (k := 4).
    + f_equal. rewrite zipWith_repeat_l by reflexivity.
      apply map_ext_Forall with (P := shape2 4 1); auto.
      intros m [Hm _]. unfold zeros. rewrite zipWith_repeat_l by auto.
      reflexivity.
    + apply repeat_length.
    + apply Forall_forall. intros m Hm. apply repeat_spec in Hm. subst m.
      unfold zeros. apply repeat_length.
    + apply Forall_impl with (P := shape2 4 1); auto. intros m [Hm _]; auto.
  - split; [apply length_map|].
    rewrite Forall_forall in *. intros m Hm. apply in_map_iff in Hm.
    destruct Hm as [m' [<- Hm']]. destruct (Hx m' Hm') as [H1 H2].
    split; [rewrite length_map; auto|].
    rewrite Forall_forall in *. intros r Hr. apply in_map_iff in Hr.
    destruct Hr as [r' [<- Hr']]. rewrite length_app, (H2 r' Hr'). reflexivity.
Qed.

Lemma pack_prepends_zero_columns_witness :
  _pack (A := RA) [ [ [1%R]; [2%R]; [3%R]; [4%R] ] ]
  = Ok (map (map (fun r => [0%R; 0%R; 0%R] ++ r)) [ [ [1%R]; [2%R]; [3%R]; [4%R] ] ]) /\
  shape3 (length [ [ [1%R]; [2%R]; [3%R]; [4%R] ] ]) 4 4
         (map (map (fun r : vec RA => [0%R; 0%R; 0%R] ++ r))
              [ [ [1%R]; [2%R]; [3%R]; [4%R] ] ]).
Proof.
  apply (@pack_prepends_zero_columns RA [ [ [1%R]; [2%R]; [3%R]; [4%R] ] ]).
  repeat first [reflexivity | split | constructor].
Defined.

(** ** The batch of rotations (lines 29-71) *)

Lemma rodrigues_from_nth (A : Arith) (eps : noise A) (r : mat A) :
  forall i j, j < length r ->
  nth j (rodrigues_from i eps r) [] = rodrigues1 (eps (i + j)) (nth j r []).
Proof.
  induction r as [|ri r IH]; intros i j Hj; simpl in Hj; [lia|].
  destruct j as [|j]; cbn [rodrigues_from nth].
  - rewrite Nat.add_0_r. reflexivity.
  - rewrite IH by lia. rewrite Nat.add_succ_r. reflexivity.
Qed.

Lemma bzip_single {X Y Z : Type} (op : string) (f : X -> Y -> result Z) (x : X)
    (ys : list Y) :
  bzip op f [x] ys = mapM (f x) ys.
Proof.
  unfold bzip. destruct ys as [|y [|y' ys]]; reflexivity.
Qed.

Section RotationOps.

Variable A : Arith.

(** A scalar, as a 1 by 1 matrix, broadcasts over a matrix. *)
Lemma bmat_scalar (op : string) (g : A -> A -> A) (c : A) (y : mat A) :
  bmat op g [ [c] ] y = Ok (map (map (g c)) y).
Proof.
  unfold bmat. rewrite bzip_single. apply mapM_pure.
  intros row _. unfold bvec. rewrite bzip_single. apply mapM_pure. reflexivity.
Qed.

Lemma rodrigues_row_3 (e : nat -> A) (r : vec A) :
  length r = 3 -> rodrigues_row e r = Ok (rodrigues1 e r).
Proof.
  destruct r as [|x [|y [|z [|]]]]; try discriminate. intros _.
  reflexivity.
Qed.

Lemma rodrigues_row_short (e : nat -> A) (r : vec A) :
  length r < 3 -> rodrigues_row e r = Err IndexError.
Proof.
  destruct r as [|x [|y [|z r]]]; simpl; intros H; try reflexivity; lia.
Qed.

Lemma rodrigues_row_long (e : nat -> A) (r : vec A) :
  3 < length r -> rodrigues_row e r = Err (RuntimeError "add").
Proof.
  destruct r as [|x [|y [|z [|w r]]]]; simpl; intros H; try lia.
  unfold rodrigues_row.
  set (theta := perturbed_angle e (x :: y :: z :: w :: r)).
  cbn [map index nth_error bind].
  rewrite matmul2_ok
    by (repeat constructor; apply Forall_forall; intros row Hr;
        apply in_map_iff in Hr; destruct Hr as [? [<- _]]; reflexivity).
  cbn [bind]. rewrite !bmat_scalar. cbn [bind].
  unfold mm. cbn [map]. reflexivity.
Qed.

Lemma rodrigues_ops_3 (eps : noise A) (r : mat A) :
  Forall (fun ri => length ri = 3) r ->
  forall i,
  mapM (fun p => rodrigues_row (eps (fst p)) (snd p)) (combine (seq i (length r)) r)
  = Ok (rodrigues_from i eps r).
Proof.
  induction 1 as [|ri r Hri _ IH]; intros i; [reflexivity|].
  cbn [length seq combine mapM rodrigues_from fst snd].
  rewrite (@rodrigues_row_3 (eps i) ri Hri). cbn [bind]. rewrite IH. reflexivity.
Qed.

End RotationOps.

(** [_rodrigues] checks the width of its argument only through the
    operations it runs.  On a non-empty batch of vectors of [k] entries:
    for [k < 3] the indexing of line 53 raises [IndexError]; for [k > 3]
    the sum of line 70 raises [RuntimeError], a 3 by 3 tensor meeting a
    [k] by [k] one; for [k = 3] (the rows of [pose.view(-1, 1, 3)]) it
    returns one 3 by 3 matrix per vector, the value [_rodrigues] of the
    model. *)
Theorem rodrigues_checks_the_width (A : Arith) (eps : noise A) (r : mat A)
    (k : nat) :
  1 <= length r -> Forall (fun ri => length ri = k) r ->
  _rodrigues_ops eps r
  = (if k <? 3 then Err IndexError
     else if k =? 3 then Ok (_rodrigues eps r)
     else Err (RuntimeError "add")) /\
  (k = 3 -> shape3 (length r) 3 3 (_rodrigues eps r)).
Proof.
  intros Hn Hk. split; [|intros _; apply rodrigues_shape].
  destruct (Nat.ltb_spec k 3) as [Hlt|Hge].
  - destruct r as [|r0 r]; [simpl in Hn; lia|].
    inversion Hk as [|? ? H0 _]; subst.
    unfold _rodrigues_ops. cbn [length seq combine mapM fst snd].
    rewrite rodrigues_row_short by exact Hlt. reflexivity.
  - destruct (Nat.eqb_spec k 3) as [->|Hne].
    + unfold _rodrigues_ops, _rodrigues. apply rodrigues_ops_3. exact Hk.
    + destruct r as [|r0 r]; [simpl in Hn; lia|].
      inversion Hk as [|? ? H0 _]; subst.
      unfold _rodrigues_ops. cbn [length seq combine mapM fst snd].
      rewrite rodrigues_row_long by lia. reflexivity.
Qed.

Lemma rodrigues_checks_the_width_witness :
  _rodrigues_ops (A := F32 ref_libm) ex_draw_a
    [ [f32 1 (-1); f32_zero; f32_zero; f32_one] ]
  = (if 4 <? 3 then Err IndexError
     else if 4 =? 3
          then Ok (_rodrigues (A := F32 ref_libm) ex_draw_a
                     [ [f32 1 (-1); f32_zero; f32_zero; f32_one] ])
          else Err (RuntimeError "add")) /\
  (4 = 3 ->
   shape3 (length [ [f32 1 (-1); f32_zero; f32_zero; f32_one] ]) 3 3
          (_rodrigues (A := F32 ref_libm) ex_draw_a
             [ [f32 1 (-1); f32_zero; f32_zero; f32_one] ])).
Proof.
  apply (@rodrigues_checks_the_width (F32 ref_libm) ex_draw_a
           [ [f32 1 (-1); f32_zero; f32_zero; f32_one] ] 4).
  - simpl. lia.
  - repeat constructor.
Defined.

(** ** The result of [forward] (lines 178-189) *)

Lemma skinned_length (A : Arith) (w : vec A) (Ts : ten3 A) (p trans : vec A) :
  length trans = 3 -> length (skinned w Ts p trans) = 3.
Proof.
  intros Ht. unfold skinned. rewrite zipWith_length; reflexivity || auto.
Qed.

(** On a consistent bundle with 24 joints, a pose of 24 rotations and a
    translation of 3 numbers, [forward] returns: one vertex of three
    coordinates per template vertex, and the faces of the bundle. *)
Theorem forward_returns_V_vertices (A : Arith) (b : SMPL A) (eps : noise A)
    (beta : vec A) (pose : mat A) (trans : vec A) (simplify : bool) (V : nat) :
  consistent b V 24 (length beta) -> shape2 24 3 pose -> length trans = 3 ->
  exists vs, forward b eps beta pose trans simplify = Ok (vs, f b) /\
             shape2 V 3 vs.
Proof.
  intros Hc Hpose Htr.
  destruct (@forward_ok A b eps beta pose trans simplify V Hc Hpose Htr)
    as [ps [_ Hf]].
  destruct (@forward_prefix A b eps beta pose simplify V 24 Hc Hpose)
    as [ps' [_ [_ [_ [_ [_ [_ [_ [_ [_ [[HP _] _]]]]]]]]]]].
  destruct Hc as [_ _ _ _ _ _ [Hw _] _ _].
  exists (mesh b eps beta pose trans simplify ps). split; auto.
  unfold mesh. split; [rewrite zipWith_length; congruence|].
  apply Forall_zipWith. intros w p _. apply skinned_length. exact Htr.
Qed.

Lemma forward_returns_V_vertices_witness :
  exists vs,
    forward ex_bundle (ex_noise 0) [0%R] ex_pose [0%R; 0%R; 0%R] false
    = Ok (vs, f ex_bundle) /\ shape2 1 3 vs.
Proof.
  apply (@forward_returns_V_vertices RA ex_bundle (ex_noise 0) [0%R] ex_pose
           [0%R; 0%R; 0%R] false 1).
  - exact ex_bundle_consistent.
  - exact ex_pose_shape.
  - reflexivity.
Defined.

Lemma skin_bad_trans (A : Arith) (b : SMPL A) (Ts : ten3 A) (v_posed : mat A)
    (t0 t : vec A) (vs0 : mat A) :
  skin b Ts v_posed t0 = Ok vs0 -> length t <> 3 ->
  skin b Ts v_posed t = Err (RuntimeError "reshape").
Proof.
  unfold skin. intros H Ht.
  destruct (tensordot_23 (weights b) Ts) as [T|e]; [|discriminate]. cbn [bind] in *.
  destruct (cat1 v_posed (ones A (length v_posed) 1)) as [h0|e]; [|discriminate].
  cbn [bind] in *.
  destruct (reshape_rows 4 (concat h0)) as [h|e]; [|discriminate]. cbn [bind] in *.
  destruct (matmul3 T (map (map (fun x => [x])) h)) as [v|e]; [|discriminate].
  cbn [bind] in *.
  destruct (reshape_rows 4 (concat (concat v))) as [v4|e]; [|discriminate].
  cbn [bind] in *.
  rewrite reshape_to_bad by (simpl; lia). reflexivity.
Qed.

(** A translation that does not have exactly 3 numbers makes [forward]
    raise the [RuntimeError] of [torch.reshape(trans, (1, 3))]; it is the
    last stage, so every other stage has run by then. *)
Theorem forward_rejects_bad_translation (A : Arith) (b : SMPL A)
    (eps : noise A) (beta : vec A) (pose : mat A) (trans : vec A)
    (simplify : bool) (V : nat) :
  consistent b V 24 (length beta) -> shape2 24 3 pose -> length trans <> 3 ->
  forward b eps beta pose trans simplify = Err (RuntimeError "reshape").
Proof.
  intros Hc Hpose Htr.
  destruct (@forward_prefix A b eps beta pose simplify V 24 Hc Hpose)
    as [ps [Hps [Hvs [Hj [Hr [Hpo [Hroot [Hloop [HG [HJ [HP _]]]]]]]]]]].
  unfold forward.
  rewrite Hps. cbn [bind]. rewrite Hvs. cbn [bind]. rewrite Hj. cbn [bind].
  rewrite Hr. cbn [bind]. rewrite Hpo. cbn [bind]. rewrite Hroot. cbn [bind].
  rewrite Hloop. cbn [bind].
  rewrite (@rest_correct_ok A _ _ HJ HG). cbn [bind].
  destruct Hc as [HV _ _ _ _ _ Hw _ _].
  assert (HT : shape3 24 4 4
                 (zipWith relative (G_all (_rodrigues eps pose) (joints b beta) ps)
                          (joints b beta))).
  { split; [rewrite zipWith_length; destruct HG, HJ; congruence|].
    destruct HG as [_ HGf]. rewrite Forall_forall in HGf.
    apply Forall_zipWith. intros G j HIn.
    apply relative_shape. apply HGf. eauto using in_combine_l. }
  set (Ts := zipWith relative (G_all (_rodrigues eps pose) (joints b beta) ps)
                     (joints b beta)) in *.
  rewrite (@skin_bad_trans A b Ts _ [fzero A; fzero A; fzero A] trans
             (zipWith (fun w p => skinned w Ts p [fzero A; fzero A; fzero A])
                      (weights b) (posed b (_rodrigues eps pose) beta simplify)));
    auto.
  apply (@skin_ok A b _ _ _ V 24); auto; lia.
Qed.

Lemma forward_rejects_bad_translation_witness :
  forward ex_bundle (ex_noise 0) [0%R] ex_pose [0%R; 0%R] false
  = Err (RuntimeError "reshape").
Proof.
  apply (@forward_rejects_bad_translation RA ex_bundle (ex_noise 0) [0%R]
           ex_pose [0%R; 0%R] false 1).
  - exact ex_bundle_consistent.
  - exact ex_pose_shape.
  - simpl; lia.
Defined.

(** ** The parent table (lines 130-131) *)

Lemma mapM_ext_in {X Y : Type} (g h : X -> result Y) (xs : list X) :
  (forall x, In x xs -> g x = h x) -> mapM g xs = mapM h xs.
Proof.
  induction xs as [|x xs IH]; intros H; cbn [mapM]; auto.
  rewrite (H x) by (left; reflexivity).
  rewrite IH by (intros; apply H; right; auto). reflexivity.
Qed.

Lemma parent_ignores_root (p0 p0' : Z) (prow : list Z) (rest : list (list Z)) :
  parent ((p0 :: prow) :: rest) = parent ((p0' :: prow) :: rest).
Proof.
  unfold parent, id_to_col. cbn [ncols length].
  assert (E : forall f : nat -> Z -> result (Z * nat),
            mapM (fun i => k <- kt_at ((p0 :: prow) :: rest) 1 i ;; f i k)
                 (seq 0 (S (length prow)))
            = mapM (fun i => k <- kt_at ((p0' :: prow) :: rest) 1 i ;; f i k)
                   (seq 0 (S (length prow)))).
  { intros f0. apply mapM_ext_in. intros i _. reflexivity. }
  rewrite (E (fun i k => Ok (k, i))).
  destruct (mapM _ (seq 0 (S (length prow)))) as [ids|e]; [|reflexivity].
  cbn [bind]. apply mapM_ext_in. intros i Hi.
  apply in_seq in Hi. destruct i as [|i]; [lia|]. reflexivity.
Qed.

(** The parent entry of the root (column 0 of row 0 of the kinematic
    tree) is never read: [forward] returns the same result whatever it
    is. *)
Theorem forward_ignores_root_parent (A : Arith) (b : SMPL A) (eps : noise A)
    (beta : vec A) (pose : mat A) (trans : vec A) (simplify : bool)
    (p0 p0' : Z) (prow : list Z) (rest : list (list Z)) :
  kintree_table b = (p0 :: prow) :: rest ->
  forward (with_kintree b ((p0' :: prow) :: rest)) eps beta pose trans simplify
  = forward b eps beta pose trans simplify.
Proof.
  intros Hk. unfold forward. cbn [kintree_table with_kintree].
  rewrite Hk, (parent_ignores_root p0 p0' prow rest). reflexivity.
Qed.

Lemma forward_ignores_root_parent_witness :
  forward (with_kintree ex_bundle
             ((0%Z :: repeat 0%Z 23) :: [map Z.of_nat (seq 0 24)]))
          (ex_noise 0) [0%R] ex_pose [0%R; 0%R; 0%R] false
  = forward ex_bundle (ex_noise 0) [0%R] ex_pose [0%R; 0%R; 0%R] false.
Proof.
  apply (@forward_ignores_root_parent RA ex_bundle (ex_noise 0) [0%R] ex_pose
           [0%R; 0%R; 0%R] false 4294967295%Z 0%Z (repeat 0%Z 23)
           [map Z.of_nat (seq 0 24)]).
  reflexivity.
Defined.

Lemma dict_get_missing (k : Z) (d : list (Z * nat)) :
  ~ In k (map fst d) -> dict_get k d = Err KeyError.
Proof.
  induction d as [|[k' v] d IH]; intros H; cbn [dict_get]; auto.
  destruct (Z.eqb_spec k k') as [->|Hne].
  - exfalso. apply H. left. reflexivity.
  - apply IH. intros Hin. apply H. right. exact Hin.
Qed.

Lemma dict_get_cases (k : Z) (d : list (Z * nat)) :
  (exists v, dict_get k d = Ok v) \/ dict_get k d = Err KeyError.
Proof.
  induction d as [|[k' v] d IH]; cbn [dict_get]; auto.
  destruct (Z.eqb k k'); eauto.
Qed.

Lemma mapM_first_error {X Y : Type} (g : X -> result Y) (e : exn) (xs : list X) :
  (forall x, In x xs -> (exists y, g x = Ok y) \/ g x = Err e) ->
  (exists x, In x xs /\ g x = Err e) ->
  mapM g xs = Err e.
Proof.
  induction xs as [|x xs IH]; intros Hall [x0 [Hin Hx0]]; [destruct Hin|].
  cbn [mapM]. destruct (Hall x (or_introl eq_refl)) as [[y Hy] | He].
  - rewrite Hy. cbn [bind]. rewrite IH; auto.
    + intros x' Hx'. apply Hall. right. exact Hx'.
    + destruct Hin as [<- | Hin]; [congruence|]. eauto.
  - rewrite He. reflexivity.
Qed.

Lemma map_fst_combine {X Y : Type} (xs : list X) (ys : list Y) :
  length xs = length ys -> map fst (combine xs ys) = xs.
Proof.
  revert ys; induction xs as [|x xs IH]; intros [|y ys] H; simpl in *;
    try discriminate; auto.
  f_equal. apply IH. lia.
Qed.

Lemma combine_seq_nth (ids : list Z) :
  forall s,
  map (fun i => (nth (i - s) ids 0%Z, i)) (seq s (length ids))
  = combine ids (seq s (length ids)).
Proof.
  induction ids as [|x ids IH]; intros s; cbn [length seq map combine]; auto.
  rewrite Nat.sub_diag. cbn [nth]. f_equal.
  rewrite <- IH. apply map_ext_in. intros i Hi. apply in_seq in Hi.
  replace (i - s) with (S (i - S s)) by lia. reflexivity.
Qed.

Lemma id_to_col_ok (prow ids : list Z) :
  length prow = length ids ->
  id_to_col [prow; ids] = Ok (rev (combine ids (seq 0 (length ids)))).
Proof.
  intros Hl. unfold id_to_col. cbn [ncols]. rewrite Hl.
  rewrite mapM_pure with (g := fun i => (nth i ids 0%Z, i)).
  - cbn [bind]. do 2 f_equal.
    rewrite <- (combine_seq_nth ids 0). apply map_ext. intros i.
    rewrite Nat.sub_0_r. reflexivity.
  - intros i Hi. apply in_seq in Hi. unfold kt_at. cbn [index nth_error bind].
    rewrite (index_ok ids 0%Z) by lia. reflexivity.
Qed.

(** A joint whose parent id is not the id of any joint makes [forward]
    raise [KeyError], before any tensor is touched. *)
Theorem forward_unknown_parent_raises_KeyError (A : Arith) (b : SMPL A)
    (eps : noise A) (beta : vec A) (pose : mat A) (trans : vec A)
    (simplify : bool) (prow ids : list Z) (i : nat) :
  kintree_table b = [prow; ids] -> length prow = length ids ->
  1 <= i < length prow -> ~ In (nth i prow 0%Z) ids ->
  forward b eps beta pose trans simplify = Err KeyError.
Proof.
  intros Hk Hl Hi Hnot. unfold forward. rewrite Hk.
  assert (Hp : parent [prow; ids] = Err KeyError).
  { unfold parent. rewrite id_to_col_ok by auto. cbn [bind ncols].
    apply mapM_first_error.
    - intros j Hj. apply in_seq in Hj. unfold kt_at. cbn [index nth_error bind].
      rewrite (index_ok prow 0%Z) by lia. cbn [bind].
      destruct (dict_get_cases (nth j prow 0%Z)
                  (rev (combine ids (seq 0 (length ids))))) as [[v Hv] | He].
      + left. rewrite Hv. cbn [bind]. eauto.
      + right. rewrite He. reflexivity.
    - exists i. split; [apply in_seq; lia|].
      unfold kt_at. cbn [index nth_error bind].
      rewrite (index_ok prow 0%Z) by lia. cbn [bind].
      rewrite dict_get_missing; [reflexivity|].
      rewrite map_rev, <- in_rev.
      rewrite map_fst_combine; auto. rewrite length_seq. reflexivity. }
  rewrite Hp. reflexivity.
Qed.

Lemma forward_unknown_parent_raises_KeyError_witness :
  forward (with_kintree ex_bundle
             [ 4294967295%Z :: 77%Z :: repeat 0%Z 22; map Z.of_nat (seq 0 24) ])
          (ex_noise 0) [0%R] ex_pose [0%R; 0%R; 0%R] false
  = Err KeyError.
Proof.
  apply (@forward_unknown_parent_raises_KeyError RA
           (with_kintree ex_bundle
              [ 4294967295%Z :: 77%Z :: repeat 0%Z 22; map Z.of_nat (seq 0 24) ])
           (ex_noise 0) [0%R] ex_pose [0%R; 0%R; 0%R] false
           (4294967295%Z :: 77%Z :: repeat 0%Z 22) (map Z.of_nat (seq 0 24)) 1).
  - reflexivity.
  - reflexivity.
  - simpl; lia.
  - vm_compute. intros H.
    repeat (destruct H as [H | H]; [discriminate H|]). exact H.
Defined.

(** ** A pose whose size is not a multiple of 3 (line 134) *)

(** On a consistent bundle, a pose whose number of entries is not a
    multiple of 3 makes [forward] raise the [RuntimeError] of
    [pose.view(-1, 1, 3)]. *)
Theorem forward_rejects_ragged_pose (A : Arith) (b : SMPL A) (eps : noise A)
    (beta : vec A) (pose : mat A) (trans : vec A) (simplify : bool)
    (V Jn : nat) :
  consistent b V Jn (length beta) -> length (concat pose) mod 3 <> 0 ->
  forward b eps beta pose trans simplify = Err (RuntimeError "reshape").
Proof.
  intros Hc Hpose.
  destruct Hc as [HV HJn Htp Hsd Hpd HJr Hw Hks Hko].
  destruct (@topological_parent _ _ Hks Hko) as [ps [Hps _]].
  destruct (@v_shaped_of_ok A b beta V HV Hsd Htp) as [Hvs Hvss].
  destruct (@joints_ok A b beta V Jn HV HJr Hvss) as [Hj _].
  unfold forward. rewrite Hps. cbn [bind]. rewrite Hvs. cbn [bind].
  rewrite Hj. cbn [bind]. unfold reshape_rows.
  apply Nat.eqb_neq in Hpose. rewrite Hpose. reflexivity.
Qed.

Lemma forward_rejects_ragged_pose_witness :
  forward ex_bundle (ex_noise 0) [0%R] [ [1%R; 0%R; 0%R; 0%R] ]
          [0%R; 0%R; 0%R] false
  = Err (RuntimeError "reshape").
Proof.
  apply (@forward_rejects_ragged_pose RA ex_bundle (ex_noise 0) [0%R]
           [ [1%R; 0%R; 0%R; 0%R] ] [0%R; 0%R; 0%R] false 1 24).
  - exact ex_bundle_consistent.
  - simpl. lia.
Defined.

(** ** Locality of the shape basis (line 132) *)

Lemma zipWith_mul_agree (A : Arith) (l beta beta' : vec A) :
  length beta' = length beta ->
  (forall k, fmul A (nth k l (fzero A)) (nth k beta (fzero A))
             = fmul A (nth k l (fzero A)) (nth k beta' (fzero A))) ->
  zipWith (fmul A) l beta = zipWith (fmul A) l beta'.
Proof.
  revert beta beta'; induction l as [|x l IH]; intros [|y beta] [|y' beta'] Hl H;
    simpl in Hl; try discriminate; auto.
  cbn [zipWith]. f_equal.
  - apply (H 0).
  - apply IH; [lia|]. intros k. apply (H (S k)).
Qed.

(** Changing shape coefficient [s] leaves alone every vertex whose shape
    basis is zero in component [s].  The law used is named: [0 * x = 0]. *)
Theorem shape_coefficient_is_local (A : Arith) (b : SMPL A)
    (beta beta' : vec A) (V s v : nat) :
  1 <= V -> shape3 V 3 (length beta) (shapedirs b) -> shape2 V 3 (v_template b) ->
  length beta' = length beta ->
  (forall k, k <> s -> nth k beta' (fzero A) = nth k beta (fzero A)) ->
  v < V ->
  (forall c, c < 3 ->
     nth s (nth c (nth v (shapedirs b) []) []) (fzero A) = fzero A) ->
  (forall x : A, fmul A (fzero A) x = fzero A) ->
  exists vs vs',
    v_shaped_of b beta = Ok vs /\ v_shaped_of b beta' = Ok vs' /\
    nth v vs [] = nth v vs' [].
Proof.
  intros HV Hsd Htp Hl Hagree Hv Hzero Hm0.
  exists (shaped b beta), (shaped b beta').
  destruct (@v_shaped_of_ok A b beta V HV Hsd Htp) as [H1 _].
  assert (Hsd' : shape3 V 3 (length beta') (shapedirs b)) by (rewrite Hl; auto).
  destruct (@v_shaped_of_ok A b beta' V HV Hsd' Htp) as [H2 _].
  split; auto. split; auto.
  destruct Hsd as [Hsl Hsf]. destruct Htp as [Htl _].
  unfold shaped.
  rewrite !(@nth_zipWith _ _ _ (zipWith (fadd A)) _ _ v [] [] [])
    by (rewrite ?length_map; congruence).
  f_equal. rewrite !nth_map_map.
  assert (Hm : shape2 3 (length beta) (nth v (shapedirs b) [])).
  { rewrite Forall_forall in Hsf. apply Hsf, nth_In. lia. }
  destruct Hm as [Hm1 Hm2].
  destruct (nth v (shapedirs b) []) as [|l0 [|l1 [|l2 [|]]]]; try discriminate.
  pose proof (Hzero 0) as Z0. pose proof (Hzero 1) as Z1. pose proof (Hzero 2) as Z2.
  cbn [nth] in Z0, Z1, Z2. cbn [map]. unfold dot.
  assert (E : forall l : vec A, nth s l (fzero A) = fzero A ->
            zipWith (fmul A) l beta = zipWith (fmul A) l beta').
  { intros l Hls. apply zipWith_mul_agree; auto. intros k.
    destruct (Nat.eq_dec k s) as [-> | Hne].
    - rewrite Hls, !Hm0. reflexivity.
    - rewrite Hagree by auto. reflexivity. }
  rewrite (E l0), (E l1), (E l2) by (auto; lia). reflexivity.
Qed.

Lemma shape_coefficient_is_local_witness :
  exists vs vs',
    v_shaped_of
      (@Build_SMPL RA (J_regressor ex_bundle) (weights ex_bundle)
         (posedirs ex_bundle) (v_template ex_bundle)
         [ [ [1%R; 0%R]; [2%R; 0%R]; [3%R; 0%R] ] ]
         (kintree_table ex_bundle) (f ex_bundle))
      [1%R; 5%R] = Ok vs /\
    v_shaped_of
      (@Build_SMPL RA (J_regressor ex_bundle) (weights ex_bundle)
         (posedirs ex_bundle) (v_template ex_bundle)
         [ [ [1%R; 0%R]; [2%R; 0%R]; [3%R; 0%R] ] ]
         (kintree_table ex_bundle) (f ex_bundle))
      [1%R; 7%R] = Ok vs' /\
    nth 0 vs [] = nth 0 vs' [].
Proof.
  apply (@shape_coefficient_is_local RA
           (@Build_SMPL RA (J_regressor ex_bundle) (weights ex_bundle)
              (posedirs ex_bundle) (v_template ex_bundle)
              [ [ [1%R; 0%R]; [2%R; 0%R]; [3%R; 0%R] ] ]
              (kintree_table ex_bundle) (f ex_bundle))
           [1%R; 5%R] [1%R; 7%R] 1 1 0).
  - lia.
  - repeat first [reflexivity | split | constructor].
  - repeat first [reflexivity | split | constructor].
  - reflexivity.
  - intros k Hk. destruct k as [|[|k]]; [reflexivity | lia | reflexivity].
  - lia.
  - intros c Hc. destruct c as [|[|[|c]]]; try lia; reflexivity.
  - intros x. simpl. apply Rmult_0_l.
Defined.

(** ** What the rest-pose correction changes (lines 165-177) *)

(** The rest-pose correction touches the translation column only: the
    first three columns of every corrected transform are those of the
    global transform.  The law used is named: [x - 0 = x]. *)
Theorem rest_correction_keeps_rotation (A : Arith) (J : mat A)
    (stacked : ten3 A) :
  (forall x : A, fsub A x (fzero A) = x) ->
  shape2 24 3 J -> shape3 24 4 4 stacked ->
  exists Ts,
    rest_correct J stacked = Ok Ts /\
    forall j a c, j < 24 -> a < 4 -> c < 3 ->
      nth c (nth a (nth j Ts []) []) (fzero A)
      = nth c (nth a (nth j stacked []) []) (fzero A).
Proof.
  intros Hsub HJ HS. exists (zipWith relative stacked J).
  split; [apply rest_correct_ok; auto|].
  intros j a c Hj Ha Hc.
  destruct HJ as [HJl _]. pose proof HS as [HSl HSf].
  rewrite (@nth_zipWith _ _ _ relative stacked J j [] [] []) by congruence.
  assert (HG : shape2 4 4 (nth j stacked [])).
  { rewrite Forall_forall in HSf. apply HSf, nth_In. lia. }
  destruct HG as [HG1 HG2]. unfold relative.
  rewrite (@nth_zipWith _ _ _ (zipWith (fsub A)) _ _ a [] [] [])
    by (rewrite ?length_map; lia).
  assert (Hrow : length (nth a (nth j stacked []) []) = 4).
  { rewrite Forall_forall in HG2. apply HG2, nth_In. lia. }
  set (pk := fun r : vec A => [fzero A; fzero A; fzero A;
                               dot r (nth j J [] ++ [fzero A])]).
  assert (Hn : nth a (map pk (nth j stacked [])) [] = pk (nth a (nth j stacked []) [])).
  { rewrite nth_indep with (d' := pk []) by (rewrite length_map; lia).
    apply map_nth. }
  rewrite Hn. unfold pk.
  destruct (nth a (nth j stacked []) []) as [|x0 [|x1 [|x2 [|x3 [|]]]]];
    try discriminate.
  destruct c as [|[|[|c]]]; try lia; cbn [zipWith nth]; apply Hsub.
Qed.

Lemma rest_correction_keeps_rotation_witness :
  exists Ts,
    rest_correct (A := RA) (repeat [1%R; 2%R; 3%R] 24)
                 (repeat (repeat [1%R; 1%R; 1%R; 1%R] 4) 24) = Ok Ts /\
    forall j a c, j < 24 -> a < 4 -> c < 3 ->
      nth c (nth a (nth j Ts []) []) 0%R
      = nth c (nth a (nth j (repeat (repeat [1%R; 1%R; 1%R; 1%R] 4) 24) []) []) 0%R.
Proof.
  apply (@rest_correction_keeps_rotation RA (repeat [1%R; 2%R; 3%R] 24)
           (repeat (repeat [1%R; 1%R; 1%R; 1%R] 4) 24)).
  - intros x. simpl. apply Rminus_0_r.
  - repeat first [reflexivity | split | constructor].
  - repeat first [reflexivity | split | constructor].
Defined.

(** ** The global transforms stay homogeneous (lines 147-163) *)

Section Homogeneous.

Variable A : Arith.

Hypothesis mul_0_l : forall x : A, fmul A (fzero A) x = fzero A.
Hypothesis mul_1_l : forall x : A, fmul A (fone A) x = x.
Hypothesis add_0_0 : fadd A (fzero A) (fzero A) = fzero A.
Hypothesis add_0_l : forall x : A, fadd A (fzero A) x = x.

Local Notation bottom_row := (@bottom_row A).

Lemma homog_bottom (R : mat A) (t : vec A) :
  shape2 3 3 R -> length t = 3 -> bottom_row (homog R t).
Proof.
  intros [Hl _] Ht.
  destruct R as [|r0 [|r1 [|r2 [|]]]]; try discriminate.
  destruct t as [|t0 [|t1 [|t2 [|]]]]; try discriminate.
  reflexivity.
Qed.

Lemma mm_bottom (G : mat A) (R : mat A) (t : vec A) :
  shape2 4 4 G -> bottom_row G -> shape2 3 3 R -> length t = 3 ->
  bottom_row (mm G (homog R t)).
Proof.
  intros [HG1 HG2] HGb [HR1 HR2] Ht. unfold bottom_row in *.
  destruct G as [|g0 [|g1 [|g2 [|g3 [|]]]]]; try discriminate.
  cbn [nth] in HGb. subst g3.
  destruct R as [|r0 [|r1 [|r2 [|]]]]; try discriminate.
  destruct t as [|t0 [|t1 [|t2 [|]]]]; try discriminate.
  inversion HR2 as [|? ? H0 HR3]; subst. inversion HR3 as [|? ? H1 HR4]; subst.
  inversion HR4 as [|? ? H2 _]; subst.
  destruct r0 as [|a0 [|a1 [|a2 [|]]]]; try discriminate.
  destruct r1 as [|b0 [|b1 [|b2 [|]]]]; try discriminate.
  destruct r2 as [|c0 [|c1 [|c2 [|]]]]; try discriminate.
  cbn. rewrite !mul_0_l, !mul_1_l, !add_0_0, !add_0_l, ?add_0_0. reflexivity.
Qed.

Lemma G_fold_bottom (R : ten3 A) (J : mat A) (n : nat) (ps : list (nat * nat)) :
  shape3 n 3 3 R -> shape2 n 3 J ->
  forall (Gs : list (mat A)),
  Forall (shape2 4 4) Gs -> Forall bottom_row Gs ->
  map fst ps = seq (length Gs) (length ps) ->
  Forall (fun ip => snd ip < fst ip) ps ->
  length Gs + length ps <= n ->
  Forall bottom_row (fold_left (G_step R J) ps Gs).
Proof.
  intros HR HJ. induction ps as [|[i p] ps IH]; intros Gs HG HB Hfst Hord Hn.
  - exact HB.
  - cbn [length map fst seq] in Hfst, Hn. inversion Hfst as [[Hi Hrest]].
    inversion Hord as [|? ? Hp Hord']; subst. cbn [fst snd] in Hp.
    cbn [fold_left].
    destruct (@fk_step_ok A R J Gs n (length Gs) p) as [_ Hsh]; auto; try lia.
    assert (Hlen : length (G_step R J Gs (length Gs, p)) = S (length Gs)).
    { unfold G_step. rewrite length_app. simpl. lia. }
    apply IH; auto.
    + unfold G_step. cbn [fst snd]. apply Forall_app. split; auto.
      constructor; [|constructor].
      rewrite Forall_forall in HG, HB.
      apply mm_bottom.
      * apply HG, nth_In. exact Hp.
      * apply HB, nth_In. exact Hp.
      * apply (@shape3_nth A n 3 3); auto. lia.
      * rewrite zipWith_length; rewrite !(@shape2_nth _ n 3); auto; lia.
    + rewrite Hlen. exact Hrest.
    + rewrite Hlen. lia.
Qed.

End Homogeneous.

(** Every global transform the sweep produces has the bottom row
    [(0, 0, 0, 1)].  The laws used are named: [0 * x = 0], [1 * x = x],
    [0 + 0 = 0] and [0 + x = x]. *)
Theorem global_transforms_are_homogeneous (A : Arith) (b : SMPL A)
    (eps : noise A) (beta : vec A) (pose : mat A) (V Jn : nat) :
  (forall x : A, fmul A (fzero A) x = fzero A) ->
  (forall x : A, fmul A (fone A) x = x) ->
  fadd A (fzero A) (fzero A) = fzero A ->
  (forall x : A, fadd A (fzero A) x = x) ->
  consistent b V Jn (length beta) -> shape2 Jn 3 pose ->
  exists ps Gs,
    parent (kintree_table b) = Ok ps /\
    (G0 <- fk_root (_rodrigues eps pose) (joints b beta) ;;
     fk_loop (_rodrigues eps pose) (joints b beta) [G0] ps) = Ok Gs /\
    length Gs = Jn /\
    Forall (fun G => nth 3 G [] = [fzero A; fzero A; fzero A; fone A]) Gs.
Proof.
  intros Hm0 Hm1 H00 H0l Hc Hpose.
  destruct (@forward_prefix A b eps beta pose true V Jn Hc Hpose)
    as [ps [Hps [_ [_ [_ [_ [Hroot [Hloop [HG [HJ [_ [Hfst Hord]]]]]]]]]]]].
  exists ps, (G_all (_rodrigues eps pose) (joints b beta) ps).
  pose proof (@rodrigues_shape A eps pose) as HR.
  destruct Hpose as [Hpl _]. rewrite Hpl in HR.
  destruct Hc as [_ HJn _ _ _ _ _ _ _].
  assert (HR0 : shape2 3 3 (nth 0 (_rodrigues eps pose) [])).
  { apply (@shape3_nth A Jn 3 3); auto. }
  assert (HJ0 : length (nth 0 (joints b beta) []) = 3).
  { apply (@shape2_nth _ Jn 3); auto. }
  assert (Hl : length ps = Jn - 1)
    by (rewrite <- (length_map fst ps), Hfst, length_seq; reflexivity).
  split; [exact Hps|]. split; [rewrite Hroot; cbn [bind]; exact Hloop|].
  split; [destruct HG; auto|].
  unfold G_all.
  apply (@G_fold_bottom A Hm0 Hm1 H00 H0l (_rodrigues eps pose) (joints b beta) Jn);
    auto.
  - constructor; [|constructor].
    destruct (@local_transform_ok A _ _ HR0 HJ0) as [_ Hs]. exact Hs.
  - constructor; [|constructor]. apply homog_bottom; auto.
  - rewrite Hl. exact Hfst.
  - rewrite Hl. simpl. lia.
Qed.

Lemma global_transforms_are_homogeneous_witness :
  exists ps Gs,
    parent (kintree_table ex_bundle) = Ok ps /\
    (G0 <- fk_root (_rodrigues (ex_noise 0) ex_pose) (joints ex_bundle [0%R]) ;;
     fk_loop (_rodrigues (ex_noise 0) ex_pose) (joints ex_bundle [0%R]) [G0] ps)
    = Ok Gs /\
    length Gs = 24 /\
    Forall (fun G : mat RA => nth 3 G [] = [0%R; 0%R; 0%R; 1%R]) Gs.
Proof.
  apply (@global_transforms_are_homogeneous RA ex_bundle (ex_noise 0) [0%R]
           ex_pose 1 24).
  - intros x. simpl. apply Rmult_0_l.
  - intros x. simpl. apply Rmult_1_l.
  - simpl. apply Rplus_0_l.
  - intros x. simpl. apply Rplus_0_l.
  - exact ex_bundle_consistent.
  - exact ex_pose_shape.
Defined.

(** ** The rotation and its axis (lines 44-71) *)

Open Scope R_scope.

(** Over the reals: the matrix [_rodrigues] returns for [r = (x, y, z)]
    maps [r] to a multiple of itself, whatever the perturbation (the
    cross-product part vanishes on [r]); the factor is
    [cos t + (1 - cos t) |r|^2 / t^2] for the perturbed angle [t], and it
    is 1 when the samples are 0. *)
Theorem rodrigues_scales_its_axis (e : nat -> R) (x y z : R) :
  perturbed_norm e x y z <> 0 ->
  let t := perturbed_norm e x y z in
  let c := cos t + (1 - cos t) * ((x * x + y * y + z * z) / (t * t)) in
  mm (A := RA) (rodrigues1 (A := RA) e [x; y; z]) [ [x]; [y]; [z] ]
  = [ [c * x]; [c * y]; [c * z] ] /\
  ((forall k, e k = 0) -> c = 1).
Proof.
  intros Ht t c. split.
  - unfold rodrigues1, mm.
    cbn -[cos sin sqrt Rplus Rmult Rminus Rdiv Ropp Rinv IZR].
    replace (0 + (x + e 0%nat) * (x + e 0%nat) + (y + e 1%nat) * (y + e 1%nat)
             + (z + e 2%nat) * (z + e 2%nat))
      with ((x + e 0%nat) * (x + e 0%nat) + (y + e 1%nat) * (y + e 1%nat)
            + (z + e 2%nat) * (z + e 2%nat)) by ring.
    fold (perturbed_norm e x y z). fold t.
    unfold c. repeat (f_equal; try (field; exact Ht)).
  - intros He.
    assert (Hsq : t * t = x * x + y * y + z * z).
    { unfold t, perturbed_norm. rewrite !He. rewrite sqrt_sqrt; [ring|]. nra. }
    unfold c. rewrite <- Hsq. field. exact Ht.
Qed.

Lemma rodrigues_scales_its_axis_witness :
  let t := perturbed_norm (fun _ => 0) 1 0 0 in
  let c := cos t + (1 - cos t) * ((1 * 1 + 0 * 0 + 0 * 0) / (t * t)) in
  mm (A := RA) (rodrigues1 (A := RA) (fun _ => 0) [1; 0; 0]) [ [1]; [0]; [0] ]
  = [ [c * 1]; [c * 0]; [c * 0] ] /\
  ((forall k : nat, (fun _ : nat => 0) k = 0) -> c = 1).
Proof.
  apply (@rodrigues_scales_its_axis (fun _ => 0) 1 0 0).
  unfold perturbed_norm.
  replace ((1 + 0) * (1 + 0) + (0 + 0) * (0 + 0) + (0 + 0) * (0 + 0)) with 1
    by ring.
  rewrite sqrt_1. lra.
Defined.

Close Scope R_scope.

(** ** Joints that share an id (line 130) *)

Lemma combine_append {X Y : Type} (xs xs' : list X) (ys ys' : list Y) :
  length xs = length ys ->
  combine (xs ++ xs') (ys ++ ys') = combine xs ys ++ combine xs' ys'.
Proof.
  revert ys; induction xs as [|x xs IH]; intros [|y ys] H; simpl in *;
    try discriminate; auto.
  f_equal. apply IH. lia.
Qed.

Lemma dict_get_last (ids : list Z) (k : Z) (c : nat) :
  dict_get k (rev (combine ids (seq 0 (length ids)))) = Ok c ->
  c < length ids /\ nth c ids 0%Z = k /\
  forall c', c < c' < length ids -> nth c' ids 0%Z <> k.
Proof.
  induction ids as [|x ids IH] using rev_ind; intros H.
  - discriminate.
  - rewrite length_app in *. cbn [length] in *.
    rewrite Nat.add_1_r in *. rewrite seq_S in H. cbn [Nat.add] in H.
    rewrite combine_append in H by (rewrite length_seq; reflexivity).
    cbn [combine] in H. rewrite rev_app_distr in H. cbn [rev app dict_get] in H.
    destruct (Z.eqb_spec k x) as [-> | Hne].
    + inversion H; subst c. split; [lia|]. split.
      * rewrite app_nth2 by lia. rewrite Nat.sub_diag. reflexivity.
      * intros c' Hc'. lia.
    + destruct (IH H) as [Hc [Hn Hlast]]. split; [lia|]. split.
      * rewrite app_nth1 by lia. exact Hn.
      * intros c' Hc'. destruct (Nat.eq_dec c' (length ids)) as [-> | Hd].
        -- rewrite app_nth2 by lia. rewrite Nat.sub_diag. cbn [nth]. congruence.
        -- rewrite app_nth1 by lia. apply Hlast. lia.
Qed.

(** When several joints carry the same id, a child is attached to the
    last of them: the parent column of joint [i] is the largest column
    whose id is the parent id of [i]. *)
Theorem parent_is_last_column_with_id (prow ids : list Z)
    (ps : list (nat * nat)) (i c : nat) :
  length prow = length ids ->
  parent [prow; ids] = Ok ps -> In (i, c) ps ->
  1 <= i < length ids /\ c < length ids /\
  nth c ids 0%Z = nth i prow 0%Z /\
  forall c', c < c' < length ids -> nth c' ids 0%Z <> nth i prow 0%Z.
Proof.
  intros Hl Hp Hin. pose proof (parent_fst _ Hp) as Hfst.
  cbn [ncols] in Hfst.
  assert (Hi : In i (map fst ps)) by (apply in_map_iff; exists (i, c); auto).
  rewrite Hfst in Hi. apply in_seq in Hi.
  unfold parent in Hp. rewrite id_to_col_ok in Hp by auto. cbn [bind ncols] in Hp.
  assert (Hg : forall xs ys,
            mapM (fun i => k <- kt_at [prow; ids] 0 i ;;
                           c <- dict_get k (rev (combine ids (seq 0 (length ids)))) ;;
                           Ok (i, c)) xs = Ok ys ->
            In (i, c) ys ->
            dict_get (nth i prow 0%Z) (rev (combine ids (seq 0 (length ids)))) = Ok c).
  { induction xs as [|x xs IH]; intros ys Hm Hy; cbn [mapM] in Hm.
    - inversion Hm; subst. destruct Hy.
    - apply bind_ok in Hm. destruct Hm as [[i' c'] [Hx Hm]].
      apply bind_ok in Hm. destruct Hm as [ys' [Hxs Hm]]. inversion Hm; subst.
      destruct Hy as [Heq | Hy]; [|eapply IH; eauto].
      inversion Heq; subst i' c'.
      apply bind_ok in Hx. destruct Hx as [k [Hk Hx]].
      apply bind_ok in Hx. destruct Hx as [c0 [Hd Hx]]. inversion Hx; subst.
      unfold kt_at in Hk. cbn [index nth_error bind] in Hk.
      rewrite (index_ok prow 0%Z) in Hk by lia. inversion Hk; subst. exact Hd. }
  specialize (Hg _ _ Hp Hin). apply dict_get_last in Hg.
  destruct Hg as [Hc [Hn Hlast]]. repeat split; auto; lia.
Qed.

Lemma parent_is_last_column_with_id_witness :
  1 <= 2 < length [7%Z; 7%Z; 9%Z] /\ 1 < length [7%Z; 7%Z; 9%Z] /\
  nth 1 [7%Z; 7%Z; 9%Z] 0%Z = nth 2 [0%Z; 7%Z; 7%Z] 0%Z /\
  forall c', 1 < c' < length [7%Z; 7%Z; 9%Z] ->
             nth c' [7%Z; 7%Z; 9%Z] 0%Z <> nth 2 [0%Z; 7%Z; 7%Z] 0%Z.
Proof.
  apply (@parent_is_last_column_with_id [0%Z; 7%Z; 7%Z] [7%Z; 7%Z; 9%Z]
           [(1, 1); (2, 1)] 2 1).
  - reflexivity.
  - reflexivity.
  - right. left. reflexivity.
Defined.

(** ** float32: the perturbation at its edges (lines 44-71) *)

(** When the draw cancels a vector, so that its perturbed angle is
    [+0.0], line 47 divides by zero and every entry of the matrix that
    [_rodrigues] returns for the vector is NaN. *)
Theorem rodrigues_nan_when_draw_cancels (L : libm) (eps : noise (F32 L))
    (r : mat (F32 L)) (i : nat) :
  libm_ok L -> i < length r -> length (nth i r []) = 3 ->
  perturbed_angle (A := F32 L) (eps i) (nth i r []) = f32_zero ->
  nth i (_rodrigues eps r) [] = nan3.
Proof.
  intros HL Hi Hl Ht. unfold _rodrigues.
  rewrite rodrigues_from_nth by exact Hi. cbn [Nat.add].
  destruct (nth i r []) as [|x [|y [|z [|]]]]; try discriminate Hl.
  unfold rodrigues1. unfold perturbed_angle in Ht.
  cbn [length] in *. rewrite Ht.
  cbn [F32 fcos fsin F fzero fone fadd fsub fmul fdiv fneg fsqrt].
  rewrite (cos_small HL f32_zero eq_refl), (sin_small HL f32_zero eq_refl).
  destruct x as [[|]|[|]| |[|] ? ?], y as [[|]|[|]| |[|] ? ?],
           z as [[|]|[|]| |[|] ? ?]; reflexivity.
Qed.

Lemma rodrigues_nan_when_draw_cancels_witness :
  nth 0 (_rodrigues (A := F32 ref_libm) ex_draw_cancel tiny_pose32) [] = nan3.
Proof.
  apply (@rodrigues_nan_when_draw_cancels ref_libm ex_draw_cancel tiny_pose32 0).
  - exact ref_libm_ok.
  - simpl. lia.
  - reflexivity.
  - reflexivity.
Defined.

(** For a pose of 24 zero vectors on a consistent bundle, [forward] does
    not depend on the draw: two evaluations whose draws give every vector
    a perturbed angle that is positive and at most [2^-13] return the
    same [V] vertices. *)
Theorem zero_pose_ignores_the_draw (L : libm) (b : SMPL (F32 L))
    (eps0 eps1 : noise (F32 L)) (beta : vec (F32 L)) (pose : mat (F32 L))
    (trans : vec (F32 L)) (simplify : bool) (V : nat) :
  libm_ok L ->
  consistent b V 24 (length beta) ->
  length pose = 24 -> Forall zero_vector pose -> length trans = 3 ->
  regular_draw eps0 pose -> regular_draw eps1 pose ->
  exists vs,
    forward b eps0 beta pose trans simplify = Ok (vs, f b) /\
    forward b eps1 beta pose trans simplify = Ok (vs, f b) /\
    shape2 V 3 vs.
Proof.
  intros HL Hc Hlen Hz Htr H0 H1.
  assert (Hpose : shape2 24 3 pose).
  { split; [exact Hlen|]. apply Forall_impl with (P := zero_vector); auto.
    exact zero_vector_length. }
  destruct (@forward_ok (F32 L) b eps0 beta pose trans simplify V Hc Hpose Htr)
    as [ps [Hps F0]].
  destruct (@forward_ok (F32 L) b eps1 beta pose trans simplify V Hc Hpose Htr)
    as [ps' [Hps' F1]].
  rewrite Hps in Hps'. injection Hps' as <-.
  destruct (@forward_prefix (F32 L) b eps0 beta pose simplify V 24 Hc Hpose)
    as [ps' [_ [_ [_ [_ [_ [_ [_ [_ [_ [[HP _] _]]]]]]]]]]].
  exists (mesh b eps0 beta pose trans simplify ps).
  split; [exact F0|]. split.
  - rewrite F1. unfold mesh.
    rewrite (@rodrigues_zero32 L HL eps0 pose Hz H0).
    rewrite (@rodrigues_zero32 L HL eps1 pose Hz H1).
    reflexivity.
  - unfold mesh. destruct Hc as [_ _ _ _ _ _ [Hw _] _ _].
    split; [rewrite zipWith_length; congruence|].
    apply Forall_zipWith. intros w p _. apply skinned_length. exact Htr.
Qed.

Lemma zero_pose_ignores_the_draw_witness :
  exists vs,
    forward (ex_bundle32 ref_libm) ex_draw_a [f32_zero] (zero_pose32 24)
            [f32_zero; f32_one; f32_zero] false
    = Ok (vs, f (ex_bundle32 ref_libm)) /\
    forward (ex_bundle32 ref_libm) ex_draw_b [f32_zero] (zero_pose32 24)
            [f32_zero; f32_one; f32_zero] false
    = Ok (vs, f (ex_bundle32 ref_libm)) /\
    shape2 1 3 vs.
Proof.
  apply (@zero_pose_ignores_the_draw ref_libm (ex_bundle32 ref_libm)
           ex_draw_a ex_draw_b [f32_zero] (zero_pose32 24)
           [f32_zero; f32_one; f32_zero] false 1).
  - exact ref_libm_ok.
  - exact (ex_bundle32_consistent ref_libm).
  - reflexivity.
  - exact (zero_pose32_zero 24).
  - reflexivity.
  - rows24.
  - rows24.
Defined.
